(** * VideoCut: export pipeline and range-request media server

    A shallow embedding of the two request handlers of [videocut.py],
    [VideoCutHandler._serve_video] and [VideoCutHandler._handle_export],
    together with the Python built-ins they rely on ([str], [int],
    [str.replace], [str.split], slicing, [format(x, ".4f")] on binary64
    floats and the [posixpath] helpers), and of the browser-side
    [addToCutList] function embedded in [get_html].

    Python strings are sequences of Unicode code points; they are modelled
    as lists of code points so that slicing counts characters exactly as
    Python does.  Floats are IEEE 754 binary64 values, modelled by
    [spec_float] with [prec = 53] and [emax = 1024]. *)

From Stdlib Require Import ZArith NArith List Ascii String Strings.Byte Lia SpecFloat.
From Stdlib Require Import Sorting.Sorted.
From stdpp Require Import base list gmap sets.

Set Default Proof Using "Type".
Local Open Scope N_scope.

(** ** Python strings *)

Abbreviation char := N (only parsing).
Abbreviation str := (list N) (only parsing).

(** ASCII literals of the source are written [lit "..."]. *)
Definition lit (s : string) : str := map N_of_ascii (list_ascii_of_string s).
Global Arguments lit : simpl never.

Definition c_minus : char := 45.
Definition c_plus : char := 43.
Definition c_underscore : char := 95.
Definition c_slash : char := 47.
Definition c_dot : char := 46.

Module Py.

(** [str(n)] for a non-negative integer: decimal digits, most significant
    first.  The fuel is the bit length of [n], an upper bound on the number
    of decimal digits. *)
Definition digit_char (d : N) : char := 48 + d.

Fixpoint digits_aux (fuel : nat) (n : N) (acc : str) : str :=
  match fuel with
  | O => acc
  | S k =>
      let acc' := digit_char (n mod 10) :: acc in
      if n <? 10 then acc' else digits_aux k (n / 10) acc'
  end.

Definition str_of_N (n : N) : str :=
  digits_aux (S (N.to_nat (N.log2 n))) n [].

(** [str(z)] for an integer. *)
Definition str_of_int (z : Z) : str :=
  if (z <? 0)%Z then c_minus :: str_of_N (Z.abs_N z) else str_of_N (Z.to_N z).

(** [f"{i:04d}"] for a non-negative integer: zero-padded to width 4. *)
Definition str_04d (n : N) : str :=
  let s := str_of_N n in replicate (4 - length s)%nat (digit_char 0) ++ s.

(** [int(s)]: surrounding whitespace is stripped, one optional sign, then
    decimal digits which may be separated by single underscores.  [None]
    stands for [ValueError].  The whitespace [int] strips is the ASCII
    whitespace of C, tab to carriage return and the space, and the Unicode
    whitespace from U+0085 on; the separators U+001C to U+001F are
    whitespace for [str.strip] but not for [int], which raises on them.
    CPython also accepts decimal digits outside ASCII (category Nd); this
    model raises on them.

    One limit of CPython is left out.  In CPython 3.11, and in the later
    releases of the versions before it, [int(s)] raises [ValueError] when
    [s] holds more digits than [sys.get_int_max_str_digits()], 4300 unless
    configured otherwise, and [str] of an integer with more digits than
    that raises as well; here both accept every number.  Below [2 ^ 63], which has 19 digits, this
    model and CPython agree, so the theorems of the media server keep a
    number within the file or bound it by [2 ^ 63]. *)
Definition is_digit (c : char) : bool := (48 <=? c) && (c <=? 57).

Definition is_space (c : char) : bool :=
  ((9 <=? c) && (c <=? 13)) || (c =? 32)
  || (c =? 133) || (c =? 160) || (c =? 5760)
  || ((8192 <=? c) && (c <=? 8202))
  || (c =? 8232) || (c =? 8233) || (c =? 8239) || (c =? 8287) || (c =? 12288).

Fixpoint lstrip (s : str) : str :=
  match s with
  | c :: s' => if is_space c then lstrip s' else s
  | [] => []
  end.

Definition strip (s : str) : str := rev (lstrip (rev (lstrip s))).

Fixpoint parse_digits (s : str) (acc : N) (after_digit : bool) : option N :=
  match s with
  | [] => if after_digit then Some acc else None
  | c :: s' =>
      if is_digit c then parse_digits s' (10 * acc + (c - 48)) true
      else if (c =? c_underscore) && after_digit then parse_digits s' acc false
      else None
  end.

(** The number a digit string denotes, continuing from [acc]. *)
Definition digits_value (s : str) (acc : N) : N :=
  fold_left (fun a c => 10 * a + (c - 48)) s acc.

Definition int (s : str) : option Z :=
  match strip s with
  | c :: r =>
      if c =? c_minus then (fun n => (- Z.of_N n)%Z) <$> parse_digits r 0 false
      else if c =? c_plus then Z.of_N <$> parse_digits r 0 false
      else Z.of_N <$> parse_digits (c :: r) 0 false
  | [] => None
  end.

(** [s.replace(old, new)] for a non-empty [old]: non-overlapping
    occurrences, scanning from the left.  [skip] counts the characters of a
    matched occurrence that remain to be consumed. *)
Fixpoint starts_with (p s : str) : bool :=
  match p, s with
  | [], _ => true
  | a :: p', b :: s' => (a =? b) && starts_with p' s'
  | _ :: _, [] => false
  end.

Fixpoint replace_from (old new : str) (skip : nat) (s : str) : str :=
  match s with
  | [] => []
  | c :: s' =>
      match skip with
      | S k => replace_from old new k s'
      | O =>
          if starts_with old s
          then new ++ replace_from old new (length old - 1) s'
          else c :: replace_from old new 0 s'
      end
  end.

Definition replace (old new s : str) : str := replace_from old new 0 s.

(** [s.split(sep)] for a one-character separator: never the empty list. *)
Fixpoint split (sep : char) (s : str) : list str :=
  match s with
  | [] => [[]]
  | c :: s' =>
      if c =? sep then [] :: split sep s'
      else match split sep s' with
           | p :: ps => (c :: p) :: ps
           | [] => [[c]]
           end
  end.

(** [s[-n:]] for [n > 0]: the last [n] characters, the whole string when it
    is shorter. *)
Definition last_chars (n : nat) (s : str) : str := drop (length s - n) s.

(** [s.encode("utf-8")] raises [UnicodeEncodeError] on a surrogate code
    point, U+D800 to U+DFFF, and on nothing else.  Such code points reach
    the program in the strings of a JSON request body and in file names
    that are not valid UTF-8. *)
Definition is_surrogate (c : char) : bool := (55296 <=? c) && (c <=? 57343).

Definition utf8_encodable (s : str) : bool := forallb (fun c => negb (is_surrogate c)) s.

End Py.

(** ** Python floats: IEEE 754 binary64 *)

Module PyFloat.

Abbreviation float := spec_float (only parsing).

Definition prec : Z := 53.
Definition emax : Z := 1024.

Definition sub : float -> float -> float := SFsub prec emax.
Definition div : float -> float -> float := SFdiv prec emax.
Definition ltb : float -> float -> bool := SFltb.
Definition leb : float -> float -> bool := SFleb.

(** [float(z)] for an integer, rounded to nearest even.  (CPython raises
    [OverflowError] where this yields an infinity.) *)
Definition of_int (z : Z) : float := binary_normalize prec emax z 0 false.

Definition is_finite (x : float) : bool :=
  match x with
  | S754_zero _ | S754_finite _ _ _ => true
  | _ => false
  end.

(** The quotient [num / den] rounded to the nearest integer, ties to even. *)
Definition round_half_even (num den : N) : N :=
  let q := num / den in
  match 2 * (num mod den) ?= den with
  | Lt => q
  | Gt => q + 1
  | Eq => if N.even q then q else q + 1
  end.

(** [m * 2^e * 10^p], correctly rounded to an integer. *)
Definition scaled (p : nat) (m : positive) (e : Z) : N :=
  match e with
  | Zneg k => round_half_even (Npos m * 10 ^ N.of_nat p) (2 ^ Npos k)
  | _ => Npos m * 2 ^ Z.to_N e * 10 ^ N.of_nat p
  end.

(** The last [p] decimal digits of [n], zero padded. *)
Fixpoint fixed_digits (p : nat) (n : N) : str :=
  match p with
  | O => []
  | S k => fixed_digits k (n / 10) ++ [Py.digit_char (n mod 10)]
  end.

Definition sign_str (s : bool) : str := if s then [c_minus] else [].

(** The scaled integer [q] written with [p] digits after the point. *)
Definition render (p : nat) (q : N) : str :=
  Py.str_of_N (q / 10 ^ N.of_nat p)
  ++ match p with
     | O => []
     | S _ => c_dot :: fixed_digits p (q mod 10 ^ N.of_nat p)
     end.

(** [format(x, ".pf")], as in [f"{x:.4f}"]: the exact binary value is
    converted to decimal with [p] fractional digits, correctly rounded
    (ties to even); the sign bit is printed also for a zero result. *)
Definition format_f (p : nat) (x : float) : str :=
  match x with
  | S754_nan => lit "nan"
  | S754_infinity s => sign_str s ++ lit "inf"
  | S754_zero s => sign_str s ++ render p 0
  | S754_finite s m e => sign_str s ++ render p (scaled p m e)
  end.

(** The absolute value of a finite float as a fraction, and its sign bit. *)
Definition exact_abs (x : float) : option (N * N) :=
  match x with
  | S754_zero _ => Some (0, 1)
  | S754_finite _ m (Zneg k) => Some (Npos m, 2 ^ Npos k)
  | S754_finite _ m e => Some (Npos m * 2 ^ Z.to_N e, 1)
  | _ => None
  end.

Definition sign_bit (x : float) : bool :=
  match x with
  | S754_zero s | S754_infinity s | S754_finite s _ _ => s
  | S754_nan => false
  end.

(** [s] is a decimal numeral for [x] with exactly [p] digits after the
    point: the sign, at least one integer digit, the point and [p] digits,
    whose value is within half a unit of the last place of [x]. *)
Definition fixed_point_numeral (p : nat) (x : float) (s : str) : Prop :=
  exists ip fp num den,
    exact_abs x = Some (num, den)
    /\ s = sign_str (sign_bit x) ++ ip ++ c_dot :: fp
    /\ ip <> []
    /\ Forall (fun c => Py.is_digit c = true) ip
    /\ Forall (fun c => Py.is_digit c = true) fp
    /\ length fp = p
    /\ (2 * Z.abs (Z.of_N (Py.digits_value (ip ++ fp) 0) * Z.of_N den
                   - Z.of_N num * 10 ^ Z.of_nat p)
        <= Z.of_N den)%Z.

End PyFloat.

(** ** [posixpath] *)

Module PosixPath.

(** [s.rfind(c)]: the index of the last occurrence, [-1] when absent. *)
Fixpoint rfind_from (c : char) (s : str) (i found : Z) : Z :=
  match s with
  | [] => found
  | x :: s' => rfind_from c s' (i + 1)%Z (if x =? c then i else found)
  end.

Definition rfind (c : char) (s : str) : Z := rfind_from c s 0 (-1).

Fixpoint lstrip_slash (s : str) : str :=
  match s with
  | c :: s' => if c =? c_slash then lstrip_slash s' else s
  | [] => []
  end.

Definition rstrip_slash (s : str) : str := rev (lstrip_slash (rev s)).

Definition basename (p : str) : str :=
  drop (Z.to_nat (rfind c_slash p + 1)) p.

Definition dirname (p : str) : str :=
  let head := take (Z.to_nat (rfind c_slash p + 1)) p in
  if forallb (fun c => c =? c_slash) head then head else rstrip_slash head.

(** [splitext]: the extension starts at the last dot of the last path
    component, unless that component consists of leading dots up to it. *)
Definition splitext (p : str) : str * str :=
  let sepIndex := rfind c_slash p in
  let dotIndex := rfind c_dot p in
  if (sepIndex <? dotIndex)%Z then
    let leading :=
      take (Z.to_nat (dotIndex - (sepIndex + 1))) (drop (Z.to_nat (sepIndex + 1)) p) in
    if forallb (fun c => c =? c_dot) leading then (p, [])
    else (take (Z.to_nat dotIndex) p, drop (Z.to_nat dotIndex) p)
  else (p, []).

Definition ends_with_slash (a : str) : bool :=
  match last a with
  | Some c => c =? c_slash
  | None => false
  end.

(** [join(a, b)] for two components. *)
Definition join (a b : str) : str :=
  if Py.starts_with [c_slash] b then b
  else if bool_decide (a = []) || ends_with_slash a then a ++ b
  else a ++ c_slash :: b.

End PosixPath.

(** ** [_serve_video]: the range-request media server *)

Module Server.

Record response := {
  status : Z;
  headers : list (str * str);
  body : list byte
}.

Inductive exn := ValueError | IndexError | OSError.

(** What one call does on its connection: a response written in full,
    [send_error], or an exception leaving the handler. *)
Inductive outcome :=
  | Sent (r : response)
  | ErrorPage (code : Z)
  | Raised (e : exn).

(** The collaborators: URL unquoting, the MIME table and the regular files
    of the filesystem with their contents. *)
Record env := {
  unquote : str -> str;
  guess_type : str -> option str;
  files : gmap str (list byte)
}.

Definition CHUNK : Z := 65536.

(** [f.read(n)] at offset [pos], for [n > 0]: at most [n] bytes, fewer at
    end of file, none at or past it. *)
Definition read (content : list byte) (pos : nat) (n : Z) : list byte :=
  take (Z.to_nat n) (drop pos content).

(** [while remaining > 0: chunk = f.read(min(65536, remaining)); ...] *)
Fixpoint range_loop (fuel : nat) (content : list byte) (pos : nat)
    (remaining : Z) (wfile : list byte) : option (list byte) :=
  match fuel with
  | O => None
  | S k =>
      if (0 <? remaining)%Z then
        match read content pos (Z.min CHUNK remaining) with
        | [] => Some wfile
        | chunk =>
            range_loop k content (pos + length chunk)
              (remaining - Z.of_nat (length chunk)) (wfile ++ chunk)
        end
      else Some wfile
  end.

(** [while True: chunk = f.read(65536); if not chunk: break; ...] *)
Fixpoint full_loop (fuel : nat) (content : list byte) (pos : nat)
    (wfile : list byte) : option (list byte) :=
  match fuel with
  | O => None
  | S k =>
      match read content pos CHUNK with
      | [] => Some wfile
      | chunk => full_loop k content (pos + length chunk) (wfile ++ chunk)
      end
  end.

(** [int(r) if r else dflt] *)
Definition int_or (r : str) (dflt : Z) : option Z :=
  match r with
  | [] => Some dflt
  | _ => Py.int r
  end.

(** The [start] and [end] of a [Range] header. *)
Definition parse_range (range_header : str) (file_size : Z) : exn + Z * Z :=
  let ranges := Py.split c_minus (Py.replace (lit "bytes=") [] range_header) in
  match ranges with
  | [] => inl IndexError
  | r0 :: rest =>
      match int_or r0 0 with
      | None => inl ValueError
      | Some start =>
          match rest with
          | [] => inl IndexError
          | r1 :: _ =>
              match int_or r1 (file_size - 1) with
              | None => inl ValueError
              | Some end_ => inr (start, end_)
              end
          end
      end
  end.

Definition content_type_of (E : env) (file_path : str) : str :=
  match guess_type E file_path with
  | Some (c :: t) => c :: t
  | _ => lit "video/mp4"
  end.

(** [_serve_video(self, path)] with the request's [Range] header.  The
    loops are given one unit of fuel per byte of the file plus one; [None]
    would mean a loop that has not finished by then.

    [f.seek(start)] is followed for the offsets up to the end of the file,
    where it succeeds, and for the negative ones, which it refuses.  An
    offset past the end is accepted here whatever its size, whereas the
    operating system refuses one beyond the largest file offset of the file
    system, [2 ^ 63 - 1] at most.  The theorems that describe the answer to
    a range therefore keep its start within the file, and bound by
    [2 ^ 63] an end that lies past the file. *)
Definition serve_video (E : env) (path : str) (range_header : option str)
    : option outcome :=
  let encoded := drop (length (lit "/video/")) path in
  let file_path := unquote E encoded in
  match files E !! file_path with
  | None => Some (ErrorPage 404)
  | Some content =>
      let file_size := Z.of_nat (length content) in
      let content_type := content_type_of E file_path in
      match range_header with
      | Some (c :: h) =>
          match parse_range (c :: h) file_size with
          | inl e => Some (Raised e)
          | inr (start, end_) =>
              let length_ := (end_ - start + 1)%Z in
              let hdrs :=
                [ (lit "Content-Type", content_type);
                  (lit "Content-Range",
                    lit "bytes " ++ Py.str_of_int start ++ lit "-"
                    ++ Py.str_of_int end_ ++ lit "/" ++ Py.str_of_int file_size);
                  (lit "Content-Length", Py.str_of_int length_);
                  (lit "Accept-Ranges", lit "bytes") ] in
              (* f.seek(start) refuses a negative offset, the headers
                 being sent already *)
              if (start <? 0)%Z then Some (Raised OSError)
              else
                match range_loop (S (length content)) content (Z.to_nat start) length_ [] with
                | None => None
                | Some sent => Some (Sent {| status := 206; headers := hdrs; body := sent |})
                end
          end
      | _ =>
          let hdrs :=
            [ (lit "Content-Type", content_type);
              (lit "Content-Length", Py.str_of_int file_size);
              (lit "Accept-Ranges", lit "bytes") ] in
          match full_loop (S (length content)) content 0 [] with
          | None => None
          | Some sent => Some (Sent {| status := 200; headers := hdrs; body := sent |})
          end
      end
  end.

(** The [Range] headers [bytes=S-E], [bytes=S-] and [bytes=-N]. *)
Definition closed_range (s e : N) : str :=
  lit "bytes=" ++ Py.str_of_N s ++ c_minus :: Py.str_of_N e.

Definition open_range (s : N) : str :=
  lit "bytes=" ++ Py.str_of_N s ++ [c_minus].

Definition suffix_range (n : N) : str :=
  lit "bytes=" ++ c_minus :: Py.str_of_N n.

End Server.

(** ** [_handle_export]: the export orchestrator *)

Module Exporter.

Import PyFloat PosixPath.

(** One element of [data["segments"]]: [{"in": seconds, "out": seconds}].
    The seconds are binary64 floats.  (A JSON integer reaches Python as an
    [int]; below [2^53] its subtraction and its [.4f] formatting agree with
    those of the float of the same value.) *)
Record TimeRange := { t_in : float; t_out : float }.

(** The decoded request body.  [output_dir] is optional. *)
Record request := {
  source : str;
  segments : list TimeRange;
  output_dir : option str;
  vflip : bool
}.

(** The JSON documents the handler sends, and the reply with its status. *)
Inductive json :=
  | JError (error : str)
  | JSuccess (output size : str).

Record reply := { code : Z; payload : json }.

Inductive exn := TimeoutExpired | Exception (msg : str).

Inductive result (A : Type) := Ok (a : A) | Err (msg : str).
Arguments Ok {A} a.
Arguments Err {A} msg.

(** [subprocess.run(cmd, capture_output=True, text=True, timeout=600)]:
    the child exits with a status and its captured stderr, or is killed at
    the timeout ([TimeoutExpired]), or the call raises another exception
    (the program cannot be started, its output cannot be decoded). *)
Inductive proc_result :=
  | Completed (returncode : Z) (stderr : str)
  | TimedOut
  | SpawnFailed (msg : str).

(** The collaborators of one call: the paths that exist when the output
    name is chosen, the external transcoder (its result may depend on the
    invocations made before), [tempfile.mkdtemp], writing the concatenation
    manifest and [os.path.getsize]. *)
Record env := {
  existing : gset str;
  run : list (list str) -> list str -> proc_result;
  mkdtemp : result str;
  write_file : str -> str -> option str;
  getsize : str -> result Z
}.

(** What the call has done so far: the invocations spawned, in order; the
    temporary directories it created and has not removed; the files it
    wrote itself. *)
Record world := {
  spawned : list (list str);
  temp_dirs : gset str;
  written : list (str * str)
}.

Definition world0 : world := {| spawned := []; temp_dirs := ∅; written := [] |}.

Definition log_spawn (cmd : list str) (w : world) : world :=
  {| spawned := spawned w ++ [cmd]; temp_dirs := temp_dirs w; written := written w |}.

Definition add_temp_dir (d : str) (w : world) : world :=
  {| spawned := spawned w; temp_dirs := temp_dirs w ∪ {[ d ]}; written := written w |}.

(** [shutil.rmtree(d, ignore_errors=True)] *)
Definition rmtree (d : str) (w : world) : world :=
  {| spawned := spawned w; temp_dirs := temp_dirs w ∖ {[ d ]}; written := written w |}.

Definition log_write (path content : str) (w : world) : world :=
  {| spawned := spawned w; temp_dirs := temp_dirs w; written := written w ++ [(path, content)] |}.

(** Control leaves a statement normally, by [return] after a reply has been
    sent, or by an exception. *)
Inductive flow (A : Type) :=
  | Next (a : A)
  | Return (r : reply)
  | Raise (e : exn).
Arguments Next {A} a.
Arguments Return {A} r.
Arguments Raise {A} e.

Definition M (A : Type) : Type := world -> flow A * world.

Definition ret {A} (a : A) : M A := fun w => (Next a, w).

Definition bind {A B} (m : M A) (k : A -> M B) : M B :=
  fun w =>
    match m w with
    | (Next a, w') => k a w'
    | (Return r, w') => (Return r, w')
    | (Raise e, w') => (Raise e, w')
    end.

Local Notation "x <-- m ;; k" := (bind m (fun x => k))
  (at level 100, m at next level, right associativity).
Local Notation "m ;;; k" := (bind m (fun _ => k))
  (at level 100, right associativity).

Definition send_and_return {A} (r : reply) : M A := fun w => (Return r, w).
Definition raise {A} (e : exn) : M A := fun w => (Raise e, w).
Definition modify (f : world -> world) : M unit := fun w => (Next tt, f w).

Definition subprocess_run (E : env) (cmd : list str) : M (Z * str) :=
  fun w =>
    let w' := log_spawn cmd w in
    match run E (spawned w) cmd with
    | Completed rc err => (Next (rc, err), w')
    | TimedOut => (Raise TimeoutExpired, w')
    | SpawnFailed msg => (Raise (Exception msg), w')
    end.

(** The messages of the source. *)
Definition msg_no_segments : str :=
  [12475; 12464; 12513; 12531; 12488; 12364; 25351; 23450; 12373; 12428;
   12390; 12356; 12414; 12379; 12435].
Definition msg_ffmpeg_error : str := lit "ffmpeg" ++ [12456; 12521; 12540; 58; 32].
Definition msg_segment : str := [12475; 12464; 12513; 12531; 12488].
Definition msg_segment_error : str := [12398; 12456; 12521; 12540; 58; 32].
Definition msg_concat_error : str := [32080; 21512; 12456; 12521; 12540; 58; 32].
Definition msg_timeout : str :=
  [20966; 29702; 12364; 12479; 12452; 12512; 12450; 12454; 12488; 12375;
   12414; 12375; 12383].

Definition TAIL : nat := 300.

(** [_format_size]: the size starts as an [int] and becomes a float at the
    first division; both are followed here in binary64, which is exact for
    sizes below [2^53]. *)
Fixpoint format_size_loop (units : list str) (size : float) : str :=
  match units with
  | [] => format_f 1 size ++ lit " TB"
  | unit :: rest =>
      if ltb size (of_int 1024) then format_f 1 size ++ lit " " ++ unit
      else format_size_loop rest (div size (of_int 1024))
  end.

Definition format_size (size : Z) : str :=
  format_size_loop [lit "B"; lit "KB"; lit "MB"; lit "GB"] (of_int size).

(** [_codec_args] *)
Definition codec_args (vflip : bool) : list str :=
  if vflip then
    [lit "-vf"; lit "vflip"; lit "-c:v"; lit "libx264"; lit "-preset";
     lit "medium"; lit "-crf"; lit "18"; lit "-c:a"; lit "copy"]
  else [lit "-c"; lit "copy"].

(** The invocation of the single-segment branch. *)
Definition single_cmd (source : str) (vflip : bool) (seg : TimeRange)
    (output_path : str) : list str :=
  let duration := sub (t_out seg) (t_in seg) in
  [lit "ffmpeg"; lit "-y";
   lit "-ss"; format_f 4 (t_in seg);
   lit "-i"; source;
   lit "-t"; format_f 4 duration]
  ++ codec_args vflip
  ++ [lit "-avoid_negative_ts"; lit "make_zero"; output_path].

(** The invocation for one segment of the multi-segment branch. *)
Definition segment_cmd (source : str) (vflip : bool) (seg : TimeRange)
    (temp_file : str) : list str :=
  let duration := sub (t_out seg) (t_in seg) in
  ([lit "ffmpeg"; lit "-y";
    lit "-ss"; format_f 4 (t_in seg);
    lit "-i"; source;
    lit "-t"; format_f 4 duration]
   ++ (if vflip then
         [lit "-vf"; lit "vflip"; lit "-c:v"; lit "libx264"; lit "-preset";
          lit "medium"; lit "-crf"; lit "18"; lit "-c:a"; lit "copy"]
       else [lit "-c"; lit "copy"]))
  ++ [lit "-avoid_negative_ts"; lit "make_zero"; lit "-f"; lit "mpegts"; temp_file].

Definition concat_cmd (concat_list output_path : str) : list str :=
  [lit "ffmpeg"; lit "-y"; lit "-f"; lit "concat"; lit "-safe"; lit "0";
   lit "-i"; concat_list; lit "-c"; lit "copy"; output_path].

Definition temp_file_name (temp_dir : str) (i : nat) : str :=
  join temp_dir (lit "seg_" ++ Py.str_04d (N.of_nat i) ++ lit ".ts").

Definition manifest (temp_files : list str) : str :=
  concat (map (fun tf => lit "file '" ++ tf ++ lit "'" ++ [10]) temp_files).

(** The candidate output names: [f"{base}_cut{ext}"], then
    [f"{base}_cut_{counter}{ext}"]. *)
Definition first_path (output_dir base ext : str) : str :=
  join output_dir (base ++ lit "_cut" ++ ext).

Definition numbered_path (output_dir base ext : str) (counter : N) : str :=
  join output_dir (base ++ lit "_cut_" ++ Py.str_of_N counter ++ ext).

(** [while os.path.exists(output_path): ...; counter += 1] *)
Fixpoint free_path (fuel : nat) (E : env) (output_dir base ext : str)
    (counter : N) (output_path : str) : option str :=
  match fuel with
  | O => None
  | S k =>
      if bool_decide (output_path ∈ existing E)
      then free_path k E output_dir base ext (counter + 1)
             (numbered_path output_dir base ext counter)
      else Some output_path
  end.

(** [for i, seg in enumerate(segments): ...] from index [i] on; the result
    is [temp_files]. *)
Fixpoint segments_loop (E : env) (source : str) (vflip : bool) (temp_dir : str)
    (i : nat) (segs : list TimeRange) (temp_files : list str) : M (list str) :=
  match segs with
  | [] => ret temp_files
  | seg :: rest =>
      let temp_file := temp_file_name temp_dir i in
      let temp_files := temp_files ++ [temp_file] in
      result <-- subprocess_run E (segment_cmd source vflip seg temp_file) ;;
      if (fst result =? 0)%Z then
        segments_loop E source vflip temp_dir (S i) rest temp_files
      else
        modify (rmtree temp_dir) ;;;
        send_and_return
          {| code := 500;
             payload := JError (msg_segment ++ Py.str_of_N (N.of_nat i + 1)
                                ++ msg_segment_error
                                ++ Py.last_chars TAIL (snd result)) |}
  end.

(** [_send_json] encodes the text [json.dumps(data, ensure_ascii=False)] as
    UTF-8 before it sends anything.  In that text a character stands for
    itself, the quote, the backslash and the control characters with a
    short escape take two characters, and the other control characters six
    ([\u00XX]). *)
Definition json_width (c : char) : N :=
  if (c =? 34) || (c =? 92) || (c =? 8) || (c =? 9) || (c =? 10) || (c =? 12) || (c =? 13)
  then 2
  else if c <? 32 then 6 else 1.

Definition hex_char (d : N) : char := if d <? 10 then 48 + d else 87 + d.

(** [f"{c:04x}"] for a code point below [2 ^ 16]. *)
Definition hex4 (c : char) : str :=
  [hex_char (c / 4096); hex_char (c / 256 mod 16); hex_char (c / 16 mod 16);
   hex_char (c mod 16)].

(** How many surrogates [s] begins with. *)
Fixpoint surrogate_run (s : str) : N :=
  match s with
  | c :: s' => if Py.is_surrogate c then 1 + surrogate_run s' else 0
  | [] => 0
  end.

(** [str(e)] for the [UnicodeEncodeError] of a JSON text in which the string
    [s] begins at index [pos] and holds a surrogate: the error names the
    first surrogate and its index, or the indices of the first run of
    surrogates. *)
Fixpoint encode_error_at (pos : N) (s : str) : str :=
  match s with
  | [] => []
  | c :: s' =>
      if Py.is_surrogate c then
        match surrogate_run s' with
        | 0 =>
            lit "'utf-8' codec can't encode character '\u" ++ hex4 c
            ++ lit "' in position " ++ Py.str_of_N pos ++ lit ": surrogates not allowed"
        | n =>
            lit "'utf-8' codec can't encode characters in position "
            ++ Py.str_of_N pos ++ lit "-" ++ Py.str_of_N (pos + n)
            ++ lit ": surrogates not allowed"
        end
      else encode_error_at (pos + json_width c) s'
  end.

(** The text of the success reply begins with the key [success] and its
    value, the key [output] and the quote that opens the output path: 29
    characters, so that the output path begins at index 29. *)
Definition success_encode_error (output_path : str) : str :=
  encode_error_at 29 output_path.

(** The body of the [try] statement.  The replies with an error text are
    sent as they are: the text is a message of the source, the decoded
    stderr of the transcoder or the [str] of an exception, none of which
    holds a surrogate.  The success reply carries the output path, which
    comes from the request: when it cannot be encoded, [_send_json] raises
    inside the [try] before anything is sent. *)
Definition try_body (E : env) (req : request) (output_path : str) : M reply :=
  (match segments req with
   | [seg] =>
       result <-- subprocess_run E (single_cmd (source req) (vflip req) seg output_path) ;;
       if (fst result =? 0)%Z then ret tt
       else
         send_and_return
           {| code := 500;
              payload := JError (msg_ffmpeg_error ++ Py.last_chars TAIL (snd result)) |}
   | segs =>
       temp_dir <-- (match mkdtemp E with
                     | Ok d => (modify (add_temp_dir d) ;;; ret d)
                     | Err msg => raise (Exception msg)
                     end) ;;
       temp_files <-- segments_loop E (source req) (vflip req) temp_dir 0 segs [] ;;
       let concat_list := join temp_dir (lit "concat.txt") in
       (match write_file E concat_list (manifest temp_files) with
        | None => modify (log_write concat_list (manifest temp_files))
        | Some msg => raise (Exception msg)
        end) ;;;
       result <-- subprocess_run E (concat_cmd concat_list output_path) ;;
       modify (rmtree temp_dir) ;;;
       if (fst result =? 0)%Z then ret tt
       else
         send_and_return
           {| code := 500;
              payload := JError (msg_concat_error ++ Py.last_chars TAIL (snd result)) |}
   end) ;;;
  match getsize E output_path with
  | Ok file_size =>
      if Py.utf8_encodable output_path
      then ret {| code := 200; payload := JSuccess output_path (format_size file_size) |}
      else raise (Exception (success_encode_error output_path))
  | Err msg => raise (Exception msg)
  end.

(** How the [try] statement ends: the reply of the body, or the one of the
    matching [except] clause. *)
Definition settle (res : flow reply * world) : reply * world :=
  match res with
  | (Next r, w') => (r, w')
  | (Return r, w') => (r, w')
  | (Raise TimeoutExpired, w') =>
      ({| code := 500; payload := JError msg_timeout |}, w')
  | (Raise (Exception msg), w') =>
      ({| code := 500; payload := JError msg |}, w')
  end.

(** [_handle_export(self, data)]: the reply sent and the state left behind.
    The name loop gets two units of fuel more than there are existing
    paths; [None] would mean it has not finished by then. *)
Definition handle_export (E : env) (req : request) (w : world)
    : option (reply * world) :=
  let out_dir := default (dirname (source req)) (output_dir req) in
  match segments req with
  | [] => Some ({| code := 400; payload := JError msg_no_segments |}, w)
  | _ :: _ =>
      let '(base, ext) := splitext (basename (source req)) in
      match free_path (S (S (size (existing E)))) E out_dir base ext 1
              (first_path out_dir base ext) with
      | None => None
      | Some output_path =>
          Some (settle (try_body E req output_path w))
      end
  end.

(** The invocations of the segment loop for [segs], numbered from [i]. *)
Fixpoint segment_cmds (source : str) (vflip : bool) (temp_dir : str)
    (i : nat) (segs : list TimeRange) : list (list str) :=
  match segs with
  | [] => []
  | seg :: rest =>
      segment_cmd source vflip seg (temp_file_name temp_dir i)
      :: segment_cmds source vflip temp_dir (S i) rest
  end.

(** The state after the invocations [cmds] have been spawned in order. *)
Definition log_spawns (cmds : list (list str)) (w : world) : world :=
  {| spawned := spawned w ++ cmds; temp_dirs := temp_dirs w; written := written w |}.

(** The output paths in the order the name loop tries them. *)
Definition candidate (output_dir base ext : str) (k : N) : str :=
  match k with
  | 0 => first_path output_dir base ext
  | _ => numbered_path output_dir base ext k
  end.

Global Arguments single_cmd : simpl never.
Global Arguments segment_cmd : simpl never.
Global Arguments concat_cmd : simpl never.
Global Arguments temp_file_name : simpl never.
Global Arguments manifest : simpl never.

End Exporter.

(** ** [addToCutList]: the browser-side check of a new segment *)

Module UI.

Import PyFloat Exporter.

Record state := {
  inPoint : option float;
  outPoint : option float;
  cutList : list TimeRange
}.

Definition alert_unset : str :=
  [73; 78; 12509; 12452; 12531; 12488; 12392; 79; 85; 84; 12509; 12452;
   12531; 12488; 12434; 35373; 23450; 12375; 12390; 12367; 12384; 12373;
   12356; 12290; 10; 73; 32; 12461; 12540; 58; 32; 73; 78; 32; 47; 32; 79;
   32; 12461; 12540; 58; 32; 79; 85; 84].

Definition alert_order : str :=
  [79; 85; 84; 12509; 12452; 12531; 12488; 12399; 73; 78; 12509; 12452;
   12531; 12488; 12424; 12426; 24460; 12395; 35373; 23450; 12375; 12390;
   12367; 12384; 12373; 12356; 12290].

(** [cutList.sort((a, b) => a.in - b.in)]: the sort is stable, and for a
    comparator that orders consistently every stable sort gives the same
    list; insertion sort stands for it. *)
Definition before (a b : TimeRange) : bool :=
  ltb (sub (t_in a) (t_in b)) (S754_zero false).

Fixpoint insert_sorted (x : TimeRange) (l : list TimeRange) : list TimeRange :=
  match l with
  | [] => [x]
  | y :: l' => if before y x then y :: insert_sorted x l' else x :: l
  end.

Definition sort (l : list TimeRange) : list TimeRange := foldr insert_sorted [] l.

(** [addToCutList()]: the new state and the alert shown, if any. *)
Definition addToCutList (st : state) : state * option str :=
  match inPoint st, outPoint st with
  | Some i, Some o =>
      if leb o i then (st, Some alert_order)
      else
        ({| inPoint := None; outPoint := None;
            cutList := sort (cutList st ++ [{| t_in := i; t_out := o |}]) |},
         None)
  | _, _ => (st, Some alert_unset)
  end.

End UI.

(** ** [find_ffmpeg] and the start of [main] *)

Module Launcher.

Import PosixPath.

(** The collaborators: [os.path.isfile], [os.path.expanduser],
    [sys._MEIPASS] when the attribute exists, and [shutil.which]. *)
Record env := {
  isfile : str -> bool;
  expanduser : str -> str;
  meipass : option str;
  which : str -> option str
}.

(** The truth value of a string or [None]. *)
Definition truthy (o : option str) : bool :=
  match o with
  | Some (_ :: _) => true
  | _ => false
  end.

Definition search_paths (E : env) : list str :=
  let search_paths :=
    [lit "/opt/homebrew/bin"; lit "/usr/local/bin"; lit "/usr/bin";
     expanduser E (lit "~/bin")] in
  match meipass E with
  | Some (c :: d) => (c :: d) :: search_paths
  | _ => search_paths
  end.

(** [os.path.isfile(ff) and os.path.isfile(fp)] for the directory [d]. *)
Definition has_both (E : env) (d : str) : bool :=
  isfile E (join d (lit "ffmpeg")) && isfile E (join d (lit "ffprobe")).

(** [for d in search_paths: ... return d] *)
Fixpoint first_dir (E : env) (dirs : list str) : option str :=
  match dirs with
  | [] => None
  | d :: rest => if has_both E d then Some d else first_dir E rest
  end.

Definition on_path (E : env) : bool :=
  truthy (which E (lit "ffmpeg")) && truthy (which E (lit "ffprobe")).

(** [find_ffmpeg()]: the directory found, the empty string when both
    programs are on [PATH], [None] otherwise. *)
Definition find_ffmpeg (E : env) : option str :=
  match first_dir E (search_paths E) with
  | Some d => Some d
  | None => if on_path E then Some [] else None
  end.

(** The start of [main()]: [sys.exit(1)] after the dialog, or the value of
    [PATH] (unset: [None]) with which the server is started. *)
Inductive startup :=
  | Exit (status : Z)
  | Serve (path_var : option str).

Definition main_start (E : env) (path_var : option str) : startup :=
  match find_ffmpeg E with
  | None => Exit 1
  | Some [] => Serve path_var
  | Some (c :: d) => Serve (Some ((c :: d) ++ lit ":" ++ default [] path_var))
  end.

End Launcher.

(** ** [_handle_browse]: the directory listing *)

Module Browse.

Import PosixPath.

(** [os.listdir]: the names, [PermissionError], or another [OSError]. *)
Inductive listing :=
  | Entries (names : list str)
  | PermissionError
  | OtherError.

(** The collaborators: [os.path.isdir], [os.listdir], [os.path.getsize]
    ([None]: it raises), the home directory [os.path.expanduser("~")] and
    [str.lower]. *)
Record env := {
  isdir : str -> bool;
  listdir : str -> listing;
  getsize : str -> option Z;
  home : str;
  lower : str -> str
}.

Inductive item_type := Dir | Video.

(** One element of ["items"]; only videos carry a ["size"]. *)
Record item := {
  name : str;
  path : str;
  type : item_type;
  size : option str
}.

(** The reply [{"dir": ..., "items": [...]}], the reply to a
    [PermissionError] [{"error": ..., "dir": ..., "items": []}], or an
    exception leaving the handler. *)
Inductive outcome :=
  | Listed (dir : str) (items : list item)
  | Denied (dir : str)
  | Raised.

Definition video_exts : list str :=
  [lit ".mp4"; lit ".mov"; lit ".avi"; lit ".mkv"; lit ".m4v"; lit ".webm";
   lit ".ts"; lit ".mts"; lit ".m2ts"].

(** [a < b] on strings: lexicographic by code point. *)
Fixpoint str_lt (a b : str) : bool :=
  match a, b with
  | _, [] => false
  | [], _ :: _ => true
  | x :: a', y :: b' =>
      if x <? y then true else if y <? x then false else str_lt a' b'
  end.

(** [sorted(names, key=str.lower)]: stable, keys compared with [<]. *)
Fixpoint insert_by_key (key : str -> str) (x : str) (l : list str) : list str :=
  match l with
  | [] => [x]
  | y :: l' => if str_lt (key y) (key x) then y :: insert_by_key key x l' else x :: l
  end.

Definition sorted_by_key (key : str -> str) (l : list str) : list str :=
  foldr (insert_by_key key) [] l.

Definition dir_item (dir_path name : str) : item :=
  {| name := name ++ lit "/"; path := join dir_path name; type := Dir; size := None |}.

Definition video_item (dir_path name : str) (sz : Z) : item :=
  {| name := name; path := join dir_path name; type := Video;
     size := Some (Exporter.format_size sz) |}.

(** [for name in entries: ...], appending to [items]; [None] when
    [os.path.getsize] raises. *)
Fixpoint scan (E : env) (dir_path : str) (entries : list str) (items : list item)
    : option (list item) :=
  match entries with
  | [] => Some items
  | name :: rest =>
      if Py.starts_with [c_dot] name then scan E dir_path rest items
      else
        let full := join dir_path name in
        if isdir E full then scan E dir_path rest (items ++ [dir_item dir_path name])
        else
          let ext := lower E (splitext name).2 in
          if bool_decide (ext ∈ video_exts) then
            match getsize E full with
            | Some sz => scan E dir_path rest (items ++ [video_item dir_path name sz])
            | None => None
            end
          else scan E dir_path rest items
  end.

(** The directory listed: the requested one when it is a directory, the
    home directory otherwise. *)
Definition listed_dir (E : env) (dir_param : option str) : str :=
  let dir_path := default (home E) dir_param in
  if isdir E dir_path then dir_path else home E.

Definition parent_items (dir_path : str) : list item :=
  let parent := dirname dir_path in
  if bool_decide (parent <> dir_path)
  then [{| name := lit ".."; path := parent; type := Dir; size := None |}]
  else [].

(** [_send_json] raises when a string of the document cannot be encoded as
    UTF-8: the directory, or the name or the path of an item (a name that
    is not valid UTF-8 on disk is listed with surrogates).  The sizes and
    the error text can always be encoded. *)
Definition sendable (dir_path : str) (items : list item) : bool :=
  Py.utf8_encodable dir_path
  && forallb (fun it => Py.utf8_encodable (name it) && Py.utf8_encodable (path it)) items.

(** [_handle_browse(self, query)], with [query["dir"]] when present. *)
Definition handle_browse (E : env) (dir_param : option str) : outcome :=
  let dir_path := listed_dir E dir_param in
  let items := parent_items dir_path in
  match listdir E dir_path with
  | PermissionError => if sendable dir_path [] then Denied dir_path else Raised
  | OtherError => Raised
  | Entries names =>
      match scan E dir_path (sorted_by_key (lower E) names) items with
      | Some items => if sendable dir_path items then Listed dir_path items else Raised
      | None => Raised
      end
  end.

(** An entry that the loop turns into an item: not hidden, and a directory
    or a file with a video extension. *)
Definition hidden (n : str) : bool := Py.starts_with [c_dot] n.

Definition shown (E : env) (dir_path n : str) : bool :=
  negb (hidden n)
  && (isdir E (join dir_path n)
      || bool_decide (lower E (splitext n).2 ∈ video_exts)).

(** The item [it] is the one the loop makes of the entry [n]. *)
Definition lists (E : env) (dir_path n : str) (it : item) : Prop :=
  hidden n = false
  /\ ((isdir E (join dir_path n) = true /\ it = dir_item dir_path n)
      \/ (isdir E (join dir_path n) = false
          /\ lower E (splitext n).2 ∈ video_exts
          /\ exists sz, getsize E (join dir_path n) = Some sz
                        /\ it = video_item dir_path n sz)).

(** [key a <= key b], that is, not [key b < key a]. *)
Definition key_le (key : str -> str) (a b : str) : Prop := str_lt (key b) (key a) = false.

End Browse.

(** ** The editing operations of the page *)

Module Editor.

Import PyFloat Exporter.

(** The variables of the script the operations read and write:
    [videoPath], [videoDuration], [video.currentTime], and [inPoint],
    [outPoint] and [cutList] as in [UI.state]. *)
Record page := {
  videoPath : option str;
  videoDuration : spec_float;
  currentTime : spec_float;
  sel : UI.state
}.

Definition has_video (p : page) : bool :=
  match videoPath p with
  | Some (_ :: _) => true
  | _ => false
  end.

Definition with_sel (p : page) (s : UI.state) : page :=
  {| videoPath := videoPath p; videoDuration := videoDuration p;
     currentTime := currentTime p; sel := s |}.

(** [setInPoint()] *)
Definition setInPoint (p : page) : page :=
  if has_video p then
    let inPoint := currentTime p in
    with_sel p
      {| UI.inPoint := Some inPoint;
         UI.outPoint :=
           match UI.outPoint (sel p) with
           | Some outPoint => if leb outPoint inPoint then None else Some outPoint
           | None => None
           end;
         UI.cutList := UI.cutList (sel p) |}
  else p.

(** [setOutPoint()]; [inPoint >= outPoint] is [outPoint <= inPoint]. *)
Definition setOutPoint (p : page) : page :=
  if has_video p then
    let outPoint := currentTime p in
    with_sel p
      {| UI.inPoint :=
           match UI.inPoint (sel p) with
           | Some inPoint => if leb outPoint inPoint then None else Some inPoint
           | None => None
           end;
         UI.outPoint := Some outPoint;
         UI.cutList := UI.cutList (sel p) |}
  else p.

(** [selectAll()] *)
Definition selectAll (p : page) : page :=
  if has_video p then
    with_sel p
      {| UI.inPoint := Some (S754_zero false);
         UI.outPoint := Some (videoDuration p);
         UI.cutList := UI.cutList (sel p) |}
  else p.

(** [addToCutList()] on the page. *)
Definition addToCutList (p : page) : page := with_sel p (UI.addToCutList (sel p)).1.

(** [removeCut(idx)]: [cutList.splice(idx, 1)] for an index [idx >= 0]. *)
Definition removeCut (idx : nat) (p : page) : page :=
  with_sel p
    {| UI.inPoint := UI.inPoint (sel p); UI.outPoint := UI.outPoint (sel p);
       UI.cutList := delete idx (UI.cutList (sel p)) |}.

(** [clearCutList()], with the answer to [confirm(...)]. *)
Definition clearCutList (confirmed : bool) (p : page) : page :=
  match UI.cutList (sel p) with
  | [] => p
  | _ :: _ =>
      if confirmed then
        with_sel p
          {| UI.inPoint := UI.inPoint (sel p); UI.outPoint := UI.outPoint (sel p);
             UI.cutList := [] |}
      else p
  end.

(** [loadVideo(path)] once [/api/video-info] has answered without an
    error, as far as these variables go. *)
Definition loadVideo (path : str) (duration : spec_float) (p : page) : page :=
  {| videoPath := Some path; videoDuration := duration; currentTime := currentTime p;
     sel := {| UI.inPoint := None; UI.outPoint := None; UI.cutList := [] |} |}.

(** Playback or a seek moves [video.currentTime]. *)
Definition timeUpdate (t : spec_float) (p : page) : page :=
  {| videoPath := videoPath p; videoDuration := videoDuration p; currentTime := t;
     sel := sel p |}.

Inductive op :=
  | SetIn
  | SetOut
  | SelectAll
  | Add
  | Remove (idx : nat)
  | Clear (confirmed : bool)
  | Load (path : str) (duration : spec_float)
  | Time (t : spec_float).

Definition step (p : page) (o : op) : page :=
  match o with
  | SetIn => setInPoint p
  | SetOut => setOutPoint p
  | SelectAll => selectAll p
  | Add => addToCutList p
  | Remove idx => removeCut idx p
  | Clear c => clearCutList c p
  | Load path d => loadVideo path d p
  | Time t => timeUpdate t p
  end.

Definition run (ops : list op) (p : page) : page := foldl step p ops.

(** The page as the script starts it. *)
Definition page0 : page :=
  {| videoPath := None; videoDuration := S754_zero false;
     currentTime := S754_zero false;
     sel := {| UI.inPoint := None; UI.outPoint := None; UI.cutList := [] |} |}.

Definition is_nan (x : spec_float) : bool :=
  match x with
  | S754_nan => true
  | _ => false
  end.

(** The times an operation brings in: the media element reports no NaN as
    its position, a loaded video no NaN as its duration. *)
Definition op_times_ok (o : op) : bool :=
  match o with
  | Load _ d => negb (is_nan d)
  | Time t => negb (is_nan t)
  | _ => true
  end.

(** A segment whose [in] lies strictly before its [out]. *)
Definition ordered (seg : TimeRange) : Prop := ltb (t_in seg) (t_out seg) = true.

Definition no_nan (o : option spec_float) : Prop :=
  match o with
  | Some x => is_nan x = false
  | None => True
  end.

(** What every operation keeps: no NaN among the times held, and every
    segment of the cut list ordered. *)
Definition inv (p : page) : Prop :=
  is_nan (currentTime p) = false
  /\ is_nan (videoDuration p) = false
  /\ no_nan (UI.inPoint (sel p))
  /\ no_nan (UI.outPoint (sel p))
  /\ Forall ordered (UI.cutList (sel p)).

End Editor.

(** ** Concrete inputs *)

Module Sample.

Import Server.

(** A 1000-byte file whose byte at offset [i] is [i mod 256]. *)
Definition sample_content : list byte :=
  map (fun i => default x00 (Byte.of_N (N.of_nat i mod 256))) (seq 0 1000).

Definition sample_env : env := {|
  unquote := fun s => s;
  guess_type := fun _ => None;
  files := {[ lit "/movies/a.mp4" := sample_content ]}
|}.

Definition sample_path : str := lit "/video//movies/a.mp4".

(** The floats [10.0], [30.0], [40.0] and [55.5]. *)
Definition float_10 : spec_float := S754_finite false 5629499534213120 (-49).
Definition float_30 : spec_float := S754_finite false 8444249301319680 (-48).
Definition float_40 : spec_float := S754_finite false 5629499534213120 (-47).
Definition float_55_5 : spec_float := S754_finite false 7810930603720704 (-47).

Definition range_10_30 : Exporter.TimeRange :=
  {| Exporter.t_in := float_10; Exporter.t_out := float_30 |}.
Definition range_40_55 : Exporter.TimeRange :=
  {| Exporter.t_in := float_40; Exporter.t_out := float_55_5 |}.
(** A range whose [out] lies before its [in]. *)
Definition range_30_10 : Exporter.TimeRange :=
  {| Exporter.t_in := float_30; Exporter.t_out := float_10 |}.

Definition sample_request (segs : list Exporter.TimeRange) : Exporter.request :=
  {| Exporter.source := lit "/movies/video.mp4";
     Exporter.segments := segs;
     Exporter.output_dir := None;
     Exporter.vflip := false |}.

(** The same request with an output directory of its own. *)
Definition sample_request_to (dir : str) (segs : list Exporter.TimeRange)
    : Exporter.request :=
  {| Exporter.source := lit "/movies/video.mp4";
     Exporter.segments := segs;
     Exporter.output_dir := Some dir;
     Exporter.vflip := false |}.

Definition sample_temp_dir : str := lit "/tmp/tmpk3v_x1".

(** An environment in which [video_cut.mp4] exists already and every
    collaborator answers as [run] says. *)
Definition export_env (run : list (list str) -> list str -> Exporter.proc_result)
    : Exporter.env :=
  {| Exporter.existing := {[ lit "/movies/video_cut.mp4" ]};
     Exporter.run := run;
     Exporter.mkdtemp := Exporter.Ok sample_temp_dir;
     Exporter.write_file := fun _ _ => None;
     Exporter.getsize := fun _ => Exporter.Ok 1536%Z |}.

(** Every invocation exits with status 0. *)
Definition run_ok (history : list (list str)) (cmd : list str) : Exporter.proc_result :=
  Exporter.Completed 0 [].

(** Every invocation runs into the timeout. *)
Definition run_timeout (history : list (list str)) (cmd : list str)
    : Exporter.proc_result :=
  Exporter.TimedOut.

(** The second invocation exits with status 1, the others with 0. *)
Definition run_second_fails (history : list (list str)) (cmd : list str)
    : Exporter.proc_result :=
  match history with
  | [_] => Exporter.Completed 1 (lit "Invalid data found when processing input")
  | _ => Exporter.Completed 0 []
  end.

End Sample.

Module MoreSamples.

Import Sample.

(** [str.lower] on ASCII letters. *)
Definition ascii_lower (s : str) : str :=
  map (fun c => if (65 <=? c) && (c <=? 90) then c + 32 else c) s.

Definition browse_names : list str :=
  [lit "b.MP4"; lit ".hidden.mp4"; lit "Clips"; lit "notes.txt"; lit "a.mov"].

(** The directory [/m] holds [browse_names], of which [Clips] is a
    directory. *)
Definition browse_env (getsize : str -> option Z) : Browse.env :=
  {| Browse.isdir := fun p => bool_decide (p ∈ [lit "/m"; lit "/m/Clips"]);
     Browse.listdir :=
       fun p => if bool_decide (p = lit "/m") then Browse.Entries browse_names
                else Browse.OtherError;
     Browse.getsize := getsize;
     Browse.home := lit "/home/u";
     Browse.lower := ascii_lower |}.

Definition size_2048 (p : str) : option Z := Some 2048%Z.

(** [a.mov] cannot be read. *)
Definition size_unreadable (p : str) : option Z :=
  if bool_decide (p = lit "/m/a.mov") then None else Some 2048%Z.

(** A loaded video at position [10.0] with [outPoint = 30.0]. *)
Definition edit_page : Editor.page :=
  {| Editor.videoPath := Some (lit "/movies/video.mp4");
     Editor.videoDuration := float_55_5;
     Editor.currentTime := float_10;
     Editor.sel := {| UI.inPoint := None; UI.outPoint := Some float_30;
                      UI.cutList := [range_40_55] |} |}.

(** Two segments are marked and added, the later one first; then the
    first entry of the list is removed. *)
Definition edit_ops : list Editor.op :=
  [Editor.Load (lit "/movies/video.mp4") float_55_5;
   Editor.Time float_40; Editor.SetIn; Editor.Time float_55_5; Editor.SetOut; Editor.Add;
   Editor.Time float_30; Editor.SetOut; Editor.Time float_10; Editor.SetIn; Editor.Add;
   Editor.Add; Editor.Remove 0].

(** What the listing of [/m] holds: the parent link, then the visible
    entries by lowercased name. *)
Definition browse_added : list Browse.item :=
  [Browse.video_item (lit "/m") (lit "a.mov") 2048;
   Browse.video_item (lit "/m") (lit "b.MP4") 2048;
   Browse.dir_item (lit "/m") (lit "Clips")].

Definition browse_items : list Browse.item :=
  {| Browse.name := lit ".."; Browse.path := lit "/"; Browse.type := Browse.Dir;
     Browse.size := None |} :: browse_added.

End MoreSamples.

(** * Facts about the built-ins *)

Section PyFacts.

Import Py.

Lemma digits_aux_fuel k1 : forall k2 n acc,
  n < 2 ^ N.of_nat (S k1) -> n < 2 ^ N.of_nat (S k2) ->
  digits_aux (S k1) n acc = digits_aux (S k2) n acc.
Proof.
  induction k1 as [|k1 IH]; intros k2 n acc H1 H2.
  - change (2 ^ N.of_nat 1) with 2 in H1.
    cbn [digits_aux]. destruct (N.ltb_spec n 10); [done | lia].
  - cbn [digits_aux]. destruct (N.ltb_spec n 10) as [|Hn]; [done|].
    assert (Hdiv : forall k, n < 2 ^ N.of_nat (S k) -> n / 10 < 2 ^ N.of_nat k).
    { intros k Hk. rewrite Nat2N.inj_succ, N.pow_succ_r' in Hk.
      apply N.Div0.div_lt_upper_bound. lia. }
    destruct k2 as [|k2].
    { change (2 ^ N.of_nat 1) with 2 in H2. lia. }
    apply IH; auto.
Qed.

Lemma digits_aux_acc k : forall n acc,
  digits_aux k n acc = digits_aux k n [] ++ acc.
Proof.
  induction k as [|k IH]; intros n acc; [done|].
  cbn [digits_aux]. destruct (n <? 10); [done|].
  rewrite IH, (IH _ [_]), <- app_assoc. done.
Qed.

Lemma log2_fuel n : n < 2 ^ N.of_nat (S (N.to_nat (N.log2 n))).
Proof.
  rewrite Nat2N.inj_succ, N2Nat.id.
  destruct n as [|p]; [done|]. apply N.log2_spec. lia.
Qed.

Lemma str_of_N_small n : n < 10 -> str_of_N n = [digit_char n].
Proof.
  intros H. unfold str_of_N. cbn [digits_aux].
  destruct (N.ltb_spec n 10); [|lia]. by rewrite N.mod_small.
Qed.

Lemma str_of_N_step n :
  10 <= n -> str_of_N n = str_of_N (n / 10) ++ [digit_char (n mod 10)].
Proof.
  intros H. unfold str_of_N at 1. cbn [digits_aux].
  destruct (N.ltb_spec n 10); [lia|].
  pose proof (log2_fuel n) as Hn.
  destruct (N.to_nat (N.log2 n)) as [|k] eqn:Hk.
  { change (2 ^ N.of_nat 1) with 2 in Hn. lia. }
  rewrite digits_aux_acc. f_equal.
  apply digits_aux_fuel; [|apply log2_fuel].
  rewrite Nat2N.inj_succ, N.pow_succ_r' in Hn.
  apply N.Div0.div_lt_upper_bound. lia.
Qed.

(** Induction over the decimal digits of a number. *)
Lemma decimal_ind (P : N -> Prop) :
  (forall n, n < 10 -> P n) ->
  (forall n, 10 <= n -> P (n / 10) -> P n) ->
  forall n, P n.
Proof.
  intros Hsmall Hstep n.
  induction n as [n IH] using (well_founded_induction N.lt_wf_0).
  destruct (N.lt_ge_cases n 10) as [|Hn]; [auto|].
  apply Hstep; [done|]. apply IH. apply N.div_lt; lia.
Qed.

Lemma is_digit_digit_char d : d < 10 -> is_digit (digit_char d) = true.
Proof. unfold is_digit, digit_char. intros. apply andb_true_iff. split; apply N.leb_le; lia. Qed.

Lemma str_of_N_digits n : Forall (fun c => is_digit c = true) (str_of_N n).
Proof.
  induction n as [n Hn | n Hn IH] using decimal_ind.
  - rewrite str_of_N_small by done. repeat constructor. by apply is_digit_digit_char.
  - rewrite str_of_N_step by done. apply Forall_app. split; [done|].
    repeat constructor. apply is_digit_digit_char. apply N.mod_upper_bound. lia.
Qed.

Lemma str_of_N_nonempty n : str_of_N n <> [].
Proof.
  destruct (N.lt_ge_cases n 10).
  - by rewrite str_of_N_small.
  - rewrite str_of_N_step by done. by destruct (str_of_N (n / 10)).
Qed.

Lemma parse_digits_all_digits s : forall acc b,
  Forall (fun c => is_digit c = true) s -> s <> [] \/ b = true ->
  parse_digits s acc b = Some (digits_value s acc).
Proof.
  induction s as [|c s IH]; intros acc b Hs Hb.
  - destruct Hb as [? | ->]; done.
  - inversion Hs as [|? ? Hc Hs']; subst. cbn [parse_digits]. rewrite Hc.
    apply IH; auto.
Qed.

Lemma digits_value_str_of_N n : digits_value (str_of_N n) 0 = n.
Proof.
  induction n as [n Hn | n Hn IH] using decimal_ind.
  - rewrite str_of_N_small by done. unfold digits_value, digit_char. cbn [fold_left]. lia.
  - rewrite str_of_N_step by done. unfold digits_value in *.
    rewrite fold_left_app, IH. cbn [fold_left]. unfold digit_char.
    pose proof (N.div_mod n 10 ltac:(done)) as H.
    revert H. generalize (n / 10) (n mod 10). intros; lia.
Qed.

Lemma parse_digits_str_of_N n : parse_digits (str_of_N n) 0 false = Some n.
Proof.
  rewrite parse_digits_all_digits.
  - by rewrite digits_value_str_of_N.
  - apply str_of_N_digits.
  - left. apply str_of_N_nonempty.
Qed.

Lemma str_of_N_inj m n : str_of_N m = str_of_N n -> m = n.
Proof.
  intros H. pose proof (parse_digits_str_of_N m) as Hm.
  rewrite H, parse_digits_str_of_N in Hm. congruence.
Qed.

Lemma digit_not_space c : is_digit c = true -> is_space c = false.
Proof.
  unfold is_digit, is_space. intros [H1 H2]%andb_true_iff.
  apply N.leb_le in H1, H2.
  repeat (apply orb_false_iff; split);
    first [ apply andb_false_iff; (left; apply N.leb_gt; lia) || (right; apply N.leb_gt; lia)
          | apply N.eqb_neq; lia ].
Qed.

Lemma lstrip_digit c s : is_digit c = true -> lstrip (c :: s) = c :: s.
Proof. intros H. cbn. by rewrite digit_not_space. Qed.

Lemma strip_digits s :
  Forall (fun c => is_digit c = true) s -> strip s = s.
Proof.
  intros Hs. unfold strip. destruct s as [|c s]; [done|].
  inversion Hs; subst. rewrite lstrip_digit by done.
  assert (Hr : Forall (fun c => is_digit c = true) (rev (c :: s))).
  { by apply Forall_rev. }
  destruct (rev (c :: s)) as [|d r] eqn:Hrev.
  - cbn in Hrev. by destruct (rev s).
  - inversion Hr; subst. rewrite lstrip_digit by done.
    by rewrite <- Hrev, rev_involutive.
Qed.

Lemma int_str_of_N n : int (str_of_N n) = Some (Z.of_N n).
Proof.
  unfold int. rewrite strip_digits by apply str_of_N_digits.
  pose proof (str_of_N_digits n) as Hd. pose proof (parse_digits_str_of_N n) as Hp.
  destruct (str_of_N n) as [|c r]; [done|].
  inversion Hd as [|? ? Hc _]; subst.
  unfold is_digit in Hc. apply andb_true_iff in Hc as [H1 H2]. apply N.leb_le in H1, H2.
  destruct (N.eqb_spec c c_minus) as [->|_]; [unfold c_minus in *; lia|].
  destruct (N.eqb_spec c c_plus) as [->|_]; [unfold c_plus in *; lia|].
  by rewrite Hp.
Qed.

Lemma starts_with_app p s : starts_with p (p ++ s) = true.
Proof. induction p as [|a p IH]; [done|]. cbn. by rewrite N.eqb_refl. Qed.

Lemma replace_from_skip old new p : forall s,
  replace_from old new (length p) (p ++ s) = replace_from old new 0 s.
Proof. induction p as [|a p IH]; intros s; [done|]. cbn. apply IH. Qed.

Lemma replace_from_absent b old new s :
  Forall (fun c => c <> b) s -> replace_from (b :: old) new 0 s = s.
Proof.
  induction 1 as [|c s Hc _ IH]; [done|].
  cbn. destruct (N.eqb_spec b c) as [->|_]; [done|]. cbn. by rewrite IH.
Qed.

Lemma replace_prefix b old s :
  Forall (fun c => c <> b) s -> replace (b :: old) [] ((b :: old) ++ s) = s.
Proof.
  intros Hs. unfold replace.
  change (replace_from (b :: old) [] 0 ((b :: old) ++ s))
    with (if starts_with (b :: old) ((b :: old) ++ s)
          then [] ++ replace_from (b :: old) [] (length (b :: old) - 1) (old ++ s)
          else b :: replace_from (b :: old) [] 0 (old ++ s)).
  rewrite starts_with_app. cbn [length app].
  replace (S (length old) - 1)%nat with (length old) by lia.
  rewrite replace_from_skip. by apply replace_from_absent.
Qed.

Lemma split_no_sep sep a :
  Forall (fun c => c <> sep) a -> split sep a = [a].
Proof.
  induction 1 as [|c a Hc _ IH]; [done|].
  cbn. destruct (N.eqb_spec c sep); [done|]. by rewrite IH.
Qed.

Lemma split_app sep a b :
  Forall (fun c => c <> sep) a -> split sep (a ++ sep :: b) = a :: split sep b.
Proof.
  induction 1 as [|c a Hc _ IH].
  - cbn. by rewrite N.eqb_refl.
  - cbn. destruct (N.eqb_spec c sep); [done|]. by rewrite IH.
Qed.

Lemma digits_avoid (c0 : N) s :
  is_digit c0 = false -> Forall (fun c => is_digit c = true) s ->
  Forall (fun c => c <> c0) s.
Proof.
  intros H0 Hs. eapply Forall_impl; [exact Hs|]. cbn. intros c Hc ->. congruence.
Qed.

End PyFacts.

(** * The media server *)

Section ServerLoops.

Import Py Server.
Local Open Scope nat_scope.

Lemma take_chunks {A} (l : list A) (c r : nat) :
  c <= r ->
  take c l ++ take (r - length (take c l)) (drop (length (take c l)) l) = take r l.
Proof.
  intros Hcr. rewrite length_take.
  destruct (Nat.le_gt_cases c (length l)) as [Hc|Hc].
  - rewrite Nat.min_l by done. rewrite take_take_drop. f_equal. lia.
  - rewrite Nat.min_r by lia. rewrite drop_all, take_nil, app_nil_r.
    by rewrite !take_ge by lia.
Qed.

Lemma take_rest {A} (l : list A) (c : nat) :
  take c l ++ drop (length (take c l)) l = l.
Proof.
  rewrite length_take. destruct (Nat.le_gt_cases c (length l)) as [Hc|Hc].
  - rewrite Nat.min_l by done. apply take_drop.
  - rewrite Nat.min_r by lia. rewrite drop_all, app_nil_r. apply take_ge. lia.
Qed.

Lemma range_loop_spec fuel : forall content pos remaining wfile,
  length (drop pos content) < fuel ->
  range_loop fuel content pos remaining wfile
  = Some (wfile ++ take (Z.to_nat remaining) (drop pos content)).
Proof.
  induction fuel as [|fuel IH]; intros content pos remaining wfile Hfuel; [lia|].
  cbn [range_loop]. destruct (Z.ltb_spec 0 remaining) as [Hr|Hr].
  2:{ replace (Z.to_nat remaining) with 0 by lia. by rewrite take_0, app_nil_r. }
  unfold read. set (c := Z.to_nat (Z.min CHUNK remaining)).
  assert (Hc : 0 < c <= Z.to_nat remaining) by (unfold c, CHUNK; lia).
  destruct (take c (drop pos content)) as [|b chunk] eqn:Hchunk.
  - assert (Hnil : drop pos content = []).
    { destruct (drop pos content); [done|]. destruct c; [lia|done]. }
    by rewrite Hnil, take_nil, app_nil_r.
  - rewrite <- Hchunk. rewrite IH.
    + rewrite <- app_assoc. do 2 f_equal. rewrite <- drop_drop.
      rewrite Z2Nat.inj_sub, Nat2Z.id by lia. apply take_chunks; lia.
    + rewrite <- drop_drop, length_drop. rewrite Hchunk. cbn [length].
      apply (f_equal length) in Hchunk. rewrite length_take in Hchunk.
      cbn [length] in Hchunk. lia.
Qed.

Lemma full_loop_spec fuel : forall content pos wfile,
  length (drop pos content) < fuel ->
  full_loop fuel content pos wfile = Some (wfile ++ drop pos content).
Proof.
  induction fuel as [|fuel IH]; intros content pos wfile Hfuel; [lia|].
  cbn [full_loop]. unfold read. set (c := Z.to_nat CHUNK).
  assert (Hc : 0 < c) by (unfold c, CHUNK; lia).
  destruct (take c (drop pos content)) as [|b chunk] eqn:Hchunk.
  - assert (Hnil : drop pos content = []).
    { destruct (drop pos content); [done|]. destruct c; [lia|done]. }
    by rewrite Hnil, app_nil_r.
  - rewrite <- Hchunk. rewrite IH.
    + rewrite <- app_assoc. do 2 f_equal. rewrite <- drop_drop.
      apply take_rest.
    + rewrite <- drop_drop, length_drop. rewrite Hchunk. cbn [length].
      apply (f_equal length) in Hchunk. rewrite length_take in Hchunk.
      cbn [length] in Hchunk. lia.
Qed.

End ServerLoops.

Section ServerFacts.

Import Py Server Sample.

Lemma lit_bytes_eq : lit "bytes=" = 98 :: lit "ytes=".
Proof. reflexivity. Qed.

Lemma int_or_str_of_N n d : int_or (str_of_N n) d = Some (Z.of_N n).
Proof.
  unfold int_or. pose proof (str_of_N_nonempty n) as Hn.
  pose proof (int_str_of_N n) as Hi.
  by destruct (str_of_N n).
Qed.

Lemma digits_no_minus n : Forall (fun c => c <> c_minus) (str_of_N n).
Proof. by apply digits_avoid, str_of_N_digits. Qed.

Lemma digits_no_b n : Forall (fun c => c <> 98) (str_of_N n).
Proof. by apply digits_avoid, str_of_N_digits. Qed.


Lemma parse_range_closed s e size :
  parse_range (closed_range s e) size = inr (Z.of_N s, Z.of_N e).
Proof.
  unfold parse_range, closed_range. rewrite lit_bytes_eq, replace_prefix.
  2:{ apply Forall_app. split; [apply digits_no_b|].
      constructor; [done | apply digits_no_b]. }
  rewrite split_app by apply digits_no_minus.
  rewrite split_no_sep by apply digits_no_minus.
  by rewrite !int_or_str_of_N.
Qed.

Lemma parse_range_open s size :
  parse_range (open_range s) size = inr (Z.of_N s, (size - 1)%Z).
Proof.
  unfold parse_range, open_range. rewrite lit_bytes_eq, replace_prefix.
  2:{ apply Forall_app. split; [apply digits_no_b|]. by repeat constructor. }
  rewrite split_app by apply digits_no_minus.
  by rewrite int_or_str_of_N.
Qed.

Lemma parse_range_suffix n size :
  parse_range (suffix_range n) size = inr (0%Z, Z.of_N n).
Proof.
  unfold parse_range, suffix_range. rewrite lit_bytes_eq, replace_prefix.
  2:{ constructor; [done | apply digits_no_b]. }
  change (c_minus :: str_of_N n) with ([] ++ c_minus :: str_of_N n).
  rewrite (split_app c_minus []) by constructor.
  rewrite split_no_sep by apply digits_no_minus.
  by rewrite int_or_str_of_N.
Qed.

(** The response of the range branch, for a parsed range. *)
Lemma serve_video_parsed E path content c h start end_ :
  files E !! unquote E (drop 7 path) = Some content ->
  parse_range (c :: h) (Z.of_nat (length content)) = inr (start, end_) ->
  (0 <= start)%Z ->
  serve_video E path (Some (c :: h))
  = Some (Sent {|
      status := 206;
      headers :=
        [ (lit "Content-Type", content_type_of E (unquote E (drop 7 path)));
          (lit "Content-Range",
            lit "bytes " ++ str_of_int start ++ lit "-" ++ str_of_int end_
            ++ lit "/" ++ str_of_int (Z.of_nat (length content)));
          (lit "Content-Length", str_of_int (end_ - start + 1));
          (lit "Accept-Ranges", lit "bytes") ];
      body := take (Z.to_nat (end_ - start + 1)) (drop (Z.to_nat start) content) |}).
Proof.
  intros Hfile Hparse Hstart. unfold serve_video.
  change (length (lit "/video/")) with 7%nat. rewrite Hfile, Hparse.
  destruct (Z.ltb_spec start 0); [lia|].
  rewrite range_loop_spec; [done|]. rewrite length_drop. lia.
Qed.

Lemma serve_video_full E path content h :
  files E !! unquote E (drop 7 path) = Some content ->
  h = None \/ h = Some [] ->
  serve_video E path h
  = Some (Sent {|
      status := 200;
      headers :=
        [ (lit "Content-Type", content_type_of E (unquote E (drop 7 path)));
          (lit "Content-Length", str_of_int (Z.of_nat (length content)));
          (lit "Accept-Ranges", lit "bytes") ];
      body := content |}).
Proof.
  intros Hfile Hh. unfold serve_video.
  change (length (lit "/video/")) with 7%nat. rewrite Hfile.
  rewrite full_loop_spec by (rewrite length_drop; lia).
  by destruct Hh as [-> | ->].
Qed.

(** Every call ends: the fuel given to the loops is enough. *)
Lemma serve_video_total E path h : exists o, serve_video E path h = Some o.
Proof.
  unfold serve_video. destruct (files E !! _) as [content|]; [|by eexists].
  destruct h as [[|c t]|];
    try (rewrite full_loop_spec by (rewrite length_drop; lia); by eexists).
  destruct (parse_range _ _) as [e|[s e]]; [by eexists|].
  destruct (s <? 0)%Z; [by eexists|].
  rewrite range_loop_spec by (rewrite length_drop; lia). by eexists.
Qed.

(** The range branch for a header that begins with [bytes=]: [Hfile] says
    that the file exists, [Hparse] what the header parses to. *)
Ltac range_branch Hfile Hparse :=
  unfold closed_range, open_range, suffix_range;
  change (lit "bytes=") with (98 :: lit "ytes="); cbn [app];
  erewrite serve_video_parsed; [ | exact Hfile | apply Hparse | lia ].

Lemma str_of_int_of_N n : str_of_int (Z.of_N n) = str_of_N n.
Proof.
  unfold str_of_int. destruct (Z.ltb_spec (Z.of_N n) 0); [lia|].
  by rewrite N2Z.id.
Qed.

Lemma Z_of_N_to_nat n : Z.to_nat (Z.of_N n) = N.to_nat n.
Proof. lia. Qed.

(** C3: for an existing file and a range [start .. end_] inside it, the
    request [bytes=start-end_] is answered with status 206, the total size
    in [Content-Range] and exactly the [end_ - start + 1] bytes of the file
    from offset [start]; [bytes=start-] ends at the last byte, [size - 1];
    a request without a range is answered with status 200, the size as
    [Content-Length] and the whole file. *)
Theorem serve_video_range_request E path content (start end_ : N) :
  files E !! unquote E (drop 7 path) = Some content ->
  start <= end_ -> end_ < N.of_nat (length content) ->
  let size := N.of_nat (length content) in
  let ctype := content_type_of E (unquote E (drop 7 path)) in
  (exists sent,
     serve_video E path (Some (closed_range start end_))
     = Some (Sent {|
         status := 206;
         headers :=
           [ (lit "Content-Type", ctype);
             (lit "Content-Range",
               lit "bytes " ++ str_of_N start ++ lit "-" ++ str_of_N end_
               ++ lit "/" ++ str_of_N size);
             (lit "Content-Length", str_of_N (end_ - start + 1));
             (lit "Accept-Ranges", lit "bytes") ];
         body := sent |})
     /\ sent = take (N.to_nat (end_ - start + 1)) (drop (N.to_nat start) content)
     /\ N.of_nat (length sent) = end_ - start + 1)
  /\ serve_video E path (Some (open_range start))
     = Some (Sent {|
         status := 206;
         headers :=
           [ (lit "Content-Type", ctype);
             (lit "Content-Range",
               lit "bytes " ++ str_of_N start ++ lit "-" ++ str_of_N (size - 1)
               ++ lit "/" ++ str_of_N size);
             (lit "Content-Length", str_of_N (size - start));
             (lit "Accept-Ranges", lit "bytes") ];
         body := drop (N.to_nat start) content |})
  /\ serve_video E path None
     = Some (Sent {|
         status := 200;
         headers :=
           [ (lit "Content-Type", ctype);
             (lit "Content-Length", str_of_N size);
             (lit "Accept-Ranges", lit "bytes") ];
         body := content |}).
Proof.
  intros Hfile Hse Hend size ctype. split; [|split].
  - eexists. split; [|split; [reflexivity|]].
    + range_branch Hfile (parse_range_closed start end_).
      rewrite !str_of_int_of_N.
      replace (Z.of_N end_ - Z.of_N start + 1)%Z with (Z.of_N (end_ - start + 1)) by lia.
      rewrite <- (nat_N_Z (length content)), !str_of_int_of_N.
      rewrite !Z_of_N_to_nat. reflexivity.
    + rewrite length_take, length_drop. lia.
  - range_branch Hfile (parse_range_open start).
    rewrite <- (nat_N_Z (length content)). fold size.
    replace (Z.of_N size - 1)%Z with (Z.of_N (size - 1)) by lia.
    replace (Z.of_N (size - 1) - Z.of_N start + 1)%Z with (Z.of_N (size - start)) by lia.
    rewrite !str_of_int_of_N, !Z_of_N_to_nat.
    rewrite take_ge; [done|]. rewrite length_drop. lia.
  - rewrite (serve_video_full E path content); auto.
    by rewrite <- (nat_N_Z (length content)), str_of_int_of_N.
Qed.

Lemma serve_video_range_request_witness :
  exists r,
    serve_video sample_env sample_path (Some (lit "bytes=200-299")) = Some (Sent r)
    /\ status r = 206%Z
    /\ headers r !! 1%nat = Some (lit "Content-Range", lit "bytes 200-299/1000")
    /\ length (body r) = 100%nat
    /\ body r = take 100 (drop 200 sample_content).
Proof.
  destruct (serve_video_range_request sample_env sample_path sample_content 200 299)
    as [(sent & Hs & -> & Hlen) _].
  - vm_compute. reflexivity.
  - vm_compute. discriminate.
  - vm_compute. reflexivity.
  - eexists. split; [exact Hs|]. repeat split.
Defined.

(** C7: when the requested end lies at or beyond the size of the file and
    the start within the file, the body written is exactly the file from
    offset [start] to its end, that is [size - start] bytes (none when
    [start] is the size).  The end is an offset below [2 ^ 63]: a number of
    more digits than [int] accepts is not parsed at all. *)
Theorem serve_video_clips_at_eof E path content (start end_ : N) :
  files E !! unquote E (drop 7 path) = Some content ->
  start <= N.of_nat (length content) ->
  N.of_nat (length content) <= end_ ->
  end_ < 2 ^ 63 ->
  exists hdrs,
    serve_video E path (Some (closed_range start end_))
    = Some (Sent {| status := 206; headers := hdrs;
                    body := drop (N.to_nat start) content |})
    /\ N.of_nat (length (drop (N.to_nat start) content))
       = N.of_nat (length content) - start.
Proof.
  intros Hfile Hstart Hend Hbound. eexists. split.
  - range_branch Hfile (parse_range_closed start end_).
    rewrite Z_of_N_to_nat. do 3 f_equal.
    apply take_ge. rewrite length_drop. lia.
  - rewrite length_drop. lia.
Qed.

Lemma serve_video_clips_at_eof_witness :
  exists hdrs,
    serve_video sample_env sample_path (Some (lit "bytes=900-5000"))
    = Some (Sent {| status := 206; headers := hdrs; body := drop 900 sample_content |})
    /\ N.of_nat (length (drop 900 sample_content)) = 1000 - 900.
Proof.
  apply (serve_video_clips_at_eof sample_env sample_path sample_content 900 5000).
  - vm_compute. reflexivity.
  - vm_compute. discriminate.
  - vm_compute. discriminate.
  - vm_compute. reflexivity.
Defined.

(** C10: for the header [bytes=-n], [n] being below [2 ^ 63], the start is
    parsed as 0 and the end as [n]; the answer is status 206 for the span
    [0 .. n] and its body is the first [n + 1] bytes of the file, which is
    not the suffix of the last [n] bytes. *)
Theorem serve_video_suffix_range E path content (n : N) :
  files E !! unquote E (drop 7 path) = Some content ->
  n < 2 ^ 63 ->
  let size := N.of_nat (length content) in
  parse_range (suffix_range n) (Z.of_N size) = inr (0%Z, Z.of_N n)
  /\ serve_video E path (Some (suffix_range n))
     = Some (Sent {|
         status := 206;
         headers :=
           [ (lit "Content-Type", content_type_of E (unquote E (drop 7 path)));
             (lit "Content-Range",
               lit "bytes 0-" ++ str_of_N n ++ lit "/" ++ str_of_N size);
             (lit "Content-Length", str_of_N (n + 1));
             (lit "Accept-Ranges", lit "bytes") ];
         body := take (N.to_nat (n + 1)) content |})
  /\ (0 < n < size ->
      take (N.to_nat (n + 1)) content <> drop (length content - N.to_nat n) content).
Proof.
  intros Hfile Hbound size. split; [apply parse_range_suffix|]. split.
  - range_branch Hfile (parse_range_suffix n).
    rewrite <- (nat_N_Z (length content)). fold size.
    replace (Z.of_N n - 0 + 1)%Z with (Z.of_N (n + 1)) by lia.
    rewrite !str_of_int_of_N, Z_of_N_to_nat. reflexivity.
  - intros Hn Heq. apply (f_equal length) in Heq.
    rewrite length_take, length_drop in Heq. unfold size in Hn. lia.
Qed.

Lemma serve_video_suffix_range_witness :
  serve_video sample_env sample_path (Some (lit "bytes=-99"))
  = Some (Sent {|
      status := 206;
      headers :=
        [ (lit "Content-Type", lit "video/mp4");
          (lit "Content-Range", lit "bytes 0-99/1000");
          (lit "Content-Length", lit "100");
          (lit "Accept-Ranges", lit "bytes") ];
      body := take 100 sample_content |}).
Proof.
  destruct (serve_video_suffix_range sample_env sample_path sample_content 99)
    as (_ & Hs & _).
  - vm_compute. reflexivity.
  - vm_compute. reflexivity.
  - exact Hs.
Defined.

End ServerFacts.

(** * Fixed-point formatting of floats *)

Section FloatFacts.

Import Py PyFloat.

Lemma fixed_digits_length p : forall n, length (fixed_digits p n) = p.
Proof.
  induction p as [|p IH]; intros n; [done|].
  cbn [fixed_digits]. rewrite length_app, IH. cbn. lia.
Qed.

Lemma fixed_digits_digits p : forall n,
  Forall (fun c => is_digit c = true) (fixed_digits p n).
Proof.
  induction p as [|p IH]; intros n; [constructor|].
  cbn [fixed_digits]. apply Forall_app. split; [apply IH|].
  repeat constructor. apply is_digit_digit_char. by apply N.mod_upper_bound.
Qed.

Lemma digits_value_app s t acc :
  digits_value (s ++ t) acc = digits_value t (digits_value s acc).
Proof. apply fold_left_app. Qed.

Lemma digits_value_fixed p : forall n acc,
  digits_value (fixed_digits p n) acc = acc * 10 ^ N.of_nat p + n mod 10 ^ N.of_nat p.
Proof.
  induction p as [|p IH]; intros n acc.
  - cbn. rewrite N.mod_1_r. lia.
  - cbn [fixed_digits]. rewrite digits_value_app, IH.
    unfold digits_value at 1. cbn [fold_left]. unfold digit_char.
    rewrite Nat2N.inj_succ, N.pow_succ_r'.
    rewrite (N.Div0.mod_mul_r n 10 (10 ^ N.of_nat p)).
    generalize (n / 10 mod 10 ^ N.of_nat p) (n mod 10) (10 ^ N.of_nat p).
    intros; lia.
Qed.

Lemma render_value p q :
  digits_value (str_of_N (q / 10 ^ N.of_nat p)
                ++ fixed_digits p (q mod 10 ^ N.of_nat p)) 0 = q.
Proof.
  rewrite digits_value_app, digits_value_str_of_N, digits_value_fixed.
  rewrite N.Div0.mod_mod.
  pose proof (N.div_mod q (10 ^ N.of_nat p)) as H.
  assert (Hp : 10 ^ N.of_nat p <> 0) by (apply N.pow_nonzero; lia).
  specialize (H Hp). revert H.
  generalize (q / 10 ^ N.of_nat p) (q mod 10 ^ N.of_nat p) (10 ^ N.of_nat p).
  intros; lia.
Qed.

Lemma round_half_even_near num den :
  den <> 0 ->
  (2 * Z.abs (Z.of_N (round_half_even num den) * Z.of_N den - Z.of_N num)
   <= Z.of_N den)%Z.
Proof.
  intros Hden. unfold round_half_even.
  pose proof (N.div_mod num den Hden) as Hdm.
  pose proof (N.mod_upper_bound num den Hden) as Hr.
  revert Hdm Hr. generalize (num / den) (num mod den). intros q r Hdm Hr.
  destruct (N.compare_spec (2 * r) den) as [He|Hl|Hg].
  - destruct (N.even q); nia.
  - nia.
  - nia.
Qed.

Lemma of_N_scale a p :
  Z.of_N (a * 10 ^ N.of_nat p) = (Z.of_N a * 10 ^ Z.of_nat p)%Z.
Proof. by rewrite N2Z.inj_mul, N2Z.inj_pow, nat_N_Z. Qed.

Lemma scaled_near p m k :
  (2 * Z.abs (Z.of_N (scaled p m (Zneg k)) * Z.of_N (2 ^ Npos k)
              - Z.of_N (Npos m) * 10 ^ Z.of_nat p)
   <= Z.of_N (2 ^ Npos k))%Z.
Proof.
  cbn [scaled].
  pose proof (round_half_even_near (Npos m * 10 ^ N.of_nat p) (2 ^ Npos k)) as H.
  rewrite of_N_scale in H. apply H. apply N.pow_nonzero. lia.
Qed.

Lemma format_f_fixed_point p x :
  p <> 0%nat -> is_finite x = true -> fixed_point_numeral p x (format_f p x).
Proof.
  intros Hp Hfin. destruct p as [|p']; [done|]. set (p := S p') in *.
  assert (Hshape : forall q,
    render p q = str_of_N (q / 10 ^ N.of_nat p)
                 ++ c_dot :: fixed_digits p (q mod 10 ^ N.of_nat p)) by done.
  assert (Hparts : forall q s num den,
    exact_abs x = Some (num, den) -> sign_bit x = s ->
    (2 * Z.abs (Z.of_N q * Z.of_N den - Z.of_N num * 10 ^ Z.of_nat p) <= Z.of_N den)%Z ->
    fixed_point_numeral p x (sign_str s ++ render p q)).
  { intros q s num den Hx Hs Hq. rewrite Hshape.
    exists (str_of_N (q / 10 ^ N.of_nat p)), (fixed_digits p (q mod 10 ^ N.of_nat p)), num, den.
    rewrite Hs, render_value.
    repeat split; auto using str_of_N_nonempty, str_of_N_digits,
      fixed_digits_digits, fixed_digits_length. }
  destruct x as [s|s| |s m e]; try done.
  - cbn [format_f]. eapply Hparts; [reflexivity..|]. cbn. lia.
  - cbn [format_f]. destruct e as [|k|k].
    + eapply Hparts; [reflexivity..|]. cbn [scaled].
      rewrite of_N_scale. change (Z.of_N 1) with 1%Z. lia.
    + eapply Hparts; [reflexivity..|]. cbn [scaled].
      rewrite of_N_scale. change (Z.of_N 1) with 1%Z. lia.
    + eapply Hparts; [reflexivity..|]. apply scaled_near.
Qed.

End FloatFacts.

(** * The export orchestrator *)

Section ExporterFacts.

Import Py PyFloat PosixPath Exporter Sample.

Lemma splitext_app p : (splitext p).1 ++ (splitext p).2 = p.
Proof.
  unfold splitext. destruct (_ <? _)%Z; [|apply app_nil_r].
  destruct (forallb _ _); [apply app_nil_r|]. apply take_drop.
Qed.

Lemma join_inj_suffix a p s1 s2 :
  p <> [] -> join a (p ++ s1) = join a (p ++ s2) -> s1 = s2.
Proof.
  intros Hp. destruct p as [|x p]; [done|]. unfold join. cbn [app starts_with].
  destruct (c_slash =? x); cbn [andb].
  - intros H. by simplify_list_eq.
  - destruct (_ || _); intros H; by simplify_list_eq.
Qed.

Lemma numbered_path_inj d b e j k :
  numbered_path d b e j = numbered_path d b e k -> j = k.
Proof.
  unfold numbered_path. rewrite !(app_assoc b). intros H.
  apply join_inj_suffix in H; [|by destruct b].
  apply app_inv_tail in H. by apply str_of_N_inj.
Qed.

(** Among finitely many existing paths some numbered candidate is free. *)
Lemma some_candidate_free (X : gset (list N)) d b e :
  exists k, k <= N.of_nat (size X) + 1 /\ (candidate d b e k ∉ X).
Proof.
  set (l := (fun i => numbered_path d b e (N.of_nat (S i))) <$> seq 0 (S (size X))).
  assert (Hnd : NoDup l).
  { apply NoDup_fmap_2; [|apply NoDup_seq].
    intros i j H. apply numbered_path_inj in H. lia. }
  destruct (decide (Forall (fun x => x ∈ X) l)) as [Hall|Hsome].
  - exfalso. assert (Hsub : list_to_set (C := gset (list N)) l ⊆ X).
    { intros x Hx. apply elem_of_list_to_set in Hx.
      by apply (proj1 (Forall_forall _ _) Hall). }
    apply subseteq_size in Hsub. rewrite size_list_to_set in Hsub by done.
    unfold l in Hsub. rewrite length_fmap, length_seq in Hsub. lia.
  - apply not_Forall_Exists in Hsome; [|apply _].
    apply Exists_exists in Hsome as (x & Hx & Hfree).
    apply list_elem_of_fmap in Hx as (i & -> & Hi).
    apply elem_of_seq in Hi. exists (N.of_nat (S i)). split; [lia|].
    cbn in Hfree. by destruct (N.of_nat (S i)) eqn:?.
Qed.

(** The least index with a decidable property, below a known one. *)
Lemma least_index (P : N -> Prop) `{!forall k, Decision (P k)} k0 :
  P k0 -> exists k, k <= k0 /\ P k /\ forall j, j < k -> ~ P j.
Proof.
  intros H0.
  assert (Hb : forall b, (forall j, j < b -> ~ P j)
                         \/ exists k, k < b /\ P k /\ forall j, j < k -> ~ P j).
  { induction b as [|b IH] using N.peano_ind.
    - left. intros j Hj. lia.
    - destruct IH as [Hnone | (k & Hk & HP & Hleast)].
      + destruct (decide (P b)) as [Hb|Hb].
        * right. exists b. split; [lia|]. by split.
        * left. intros j Hj. destruct (decide (j = b)) as [->|]; [done|].
          apply Hnone. lia.
      + right. exists k. split; [lia|]. by split. }
  destruct (Hb (k0 + 1)) as [Hnone | (k & Hk & HP & Hleast)].
  - exfalso. apply (Hnone k0); [lia | done].
  - exists k. split; [lia|]. by split.
Qed.

Lemma free_path_spec E d b e fuel : forall c k,
  (forall j, c <= j < k -> candidate d b e j ∈ existing E) ->
  candidate d b e k ∉ existing E ->
  c <= k -> (N.to_nat (k - c) < fuel)%nat ->
  free_path fuel E d b e (c + 1) (candidate d b e c) = Some (candidate d b e k).
Proof.
  induction fuel as [|fuel IH]; intros c k Hbelow Hfree Hck Hfuel; [lia|].
  cbn [free_path]. destruct (decide (c = k)) as [->|Hne].
  - by rewrite bool_decide_eq_false_2.
  - rewrite bool_decide_eq_true_2 by (apply Hbelow; lia).
    replace (numbered_path d b e (c + 1)) with (candidate d b e (c + 1)).
    2:{ unfold candidate. destruct (c + 1) eqn:?; [lia | done]. }
    apply IH; auto; try lia. intros j Hj. apply Hbelow. lia.
Qed.

(** The name loop ends, on the first candidate that does not exist. *)
Lemma free_path_first_free E d b e :
  exists k,
    free_path (S (S (size (existing E)))) E d b e 1 (first_path d b e)
    = Some (candidate d b e k)
    /\ (candidate d b e k ∉ existing E)
    /\ forall j, j < k -> candidate d b e j ∈ existing E.
Proof.
  destruct (some_candidate_free (existing E) d b e) as (k0 & Hk0 & Hfree0).
  destruct (least_index (fun k => candidate d b e k ∉ existing E) k0 Hfree0)
    as (k & Hk & Hfree & Hleast).
  exists k. split; [|split; [done|]].
  - apply (free_path_spec E d b e _ 0 k); auto; try lia.
    intros j Hj. destruct (decide (candidate d b e j ∈ existing E)); [done|].
    exfalso. apply (Hleast j); [lia | done].
  - intros j Hj. destruct (decide (candidate d b e j ∈ existing E)); [done|].
    exfalso. by apply (Hleast j).
Qed.
Lemma log_spawns_cons c cmds w :
  log_spawns (c :: cmds) w = log_spawns cmds (log_spawn c w).
Proof. unfold log_spawns, log_spawn. cbn. by rewrite <- app_assoc. Qed.

Lemma log_spawns_nil w : log_spawns [] w = w.
Proof. destruct w. unfold log_spawns. cbn. by rewrite app_nil_r. Qed.

Lemma subprocess_run_completed E cmd w rc err :
  run E (spawned w) cmd = Completed rc err ->
  subprocess_run E cmd w = (Next (rc, err), log_spawn cmd w).
Proof. intros H. unfold subprocess_run. by rewrite H. Qed.



(** Every call with segments chooses an output path and ends with a reply. *)
Lemma handle_export_runs E req w :
  segments req <> [] ->
  let out_dir := default (dirname (source req)) (output_dir req) in
  let base := (splitext (basename (source req))).1 in
  let ext := (splitext (basename (source req))).2 in
  exists k,
    handle_export E req w
    = Some (settle (try_body E req (candidate out_dir base ext k) w))
    /\ (candidate out_dir base ext k ∉ existing E)
    /\ forall j, j < k -> candidate out_dir base ext j ∈ existing E.
Proof.
  intros Hsegs out_dir base ext.
  destruct (free_path_first_free E out_dir base ext) as (k & Hfp & Hfree & Hleast).
  exists k. split; [|by split].
  unfold handle_export. destruct (segments req) as [|s l] eqn:Hs; [done|].
  fold out_dir. destruct (splitext (basename (source req))) as [b e] eqn:Hsplit.
  subst base ext. cbn [fst snd] in *. by rewrite Hfp.
Qed.

(** Every call ends with a reply: the fuel given to the name loop is
    enough. *)
Lemma handle_export_total E req w : exists r w', handle_export E req w = Some (r, w').
Proof.
  destruct (segments req) as [|s l] eqn:Hsegs.
  - unfold handle_export. rewrite Hsegs. by eexists _, _.
  - destruct (handle_export_runs E req w) as (k & Hrun & _); [congruence|].
    rewrite Hrun. destruct (settle _). by eexists _, _.
Qed.

(** The path functions on a path [d/name] whose [name] holds no slash. *)
Lemma rfind_from_absent c s : forall i found,
  Forall (fun x => x <> c) s -> rfind_from c s i found = found.
Proof.
  induction s as [|x s IH]; intros i found Hs; [done|].
  inversion Hs as [|? ? Hx Hs']; subst. cbn [rfind_from].
  destruct (N.eqb_spec x c); [done|]. by apply IH.
Qed.

Lemma rfind_from_app c a : forall b i found,
  rfind_from c (a ++ b) i found
  = rfind_from c b (i + Z.of_nat (length a)) (rfind_from c a i found).
Proof.
  induction a as [|x a IH]; intros b i found.
  - cbn. by rewrite Z.add_0_r.
  - cbn [app rfind_from length]. rewrite IH. f_equal. lia.
Qed.

Lemma rfind_last_slash d name :
  Forall (fun x => x <> c_slash) name ->
  rfind c_slash (d ++ c_slash :: name) = Z.of_nat (length d).
Proof.
  intros Hname. unfold rfind. rewrite rfind_from_app. cbn [rfind_from].
  rewrite N.eqb_refl. by rewrite rfind_from_absent.
Qed.

Lemma basename_after_slash d name :
  Forall (fun x => x <> c_slash) name -> basename (d ++ c_slash :: name) = name.
Proof.
  intros Hname. unfold basename. rewrite rfind_last_slash by done.
  replace (Z.to_nat (Z.of_nat (length d) + 1)) with (length (d ++ [c_slash])).
  2:{ rewrite length_app. cbn. lia. }
  rewrite (cons_middle c_slash d name), app_assoc. by rewrite drop_app_length.
Qed.

Lemma dirname_before_slash d0 c name :
  c <> c_slash -> Forall (fun x => x <> c_slash) name ->
  dirname ((d0 ++ [c]) ++ c_slash :: name) = d0 ++ [c].
Proof.
  intros Hc Hname. unfold dirname. rewrite rfind_last_slash by done.
  replace (Z.to_nat (Z.of_nat (length (d0 ++ [c])) + 1))
    with (length ((d0 ++ [c]) ++ [c_slash])).
  2:{ rewrite !length_app. cbn. lia. }
  rewrite (cons_middle c_slash (d0 ++ [c]) name), app_assoc, take_app_length.
  replace (forallb (fun x => x =? c_slash) ((d0 ++ [c]) ++ [c_slash])) with false.
  2:{ symmetry. apply not_true_is_false. intros Hall.
      rewrite forallb_forall in Hall. specialize (Hall c).
      rewrite N.eqb_eq in Hall. apply Hc, Hall. rewrite !in_app_iff. left. right. by left. }
  unfold rstrip_slash. rewrite !rev_app_distr. cbn [rev app lstrip_slash].
  rewrite N.eqb_refl. destruct (N.eqb_spec c c_slash); [done|].
  cbn [rev]. by rewrite rev_involutive.
Qed.

Lemma join_plain d0 c n :
  c <> c_slash -> starts_with [c_slash] n = false ->
  join (d0 ++ [c]) n = d0 ++ [c] ++ c_slash :: n.
Proof.
  intros Hc Hn. unfold join. rewrite Hn.
  rewrite bool_decide_eq_false_2 by (by destruct d0).
  unfold ends_with_slash. rewrite last_snoc.
  destruct (N.eqb_spec c c_slash); [done|]. cbn [orb]. by rewrite <- app_assoc.
Qed.

Lemma stem_not_absolute name sfx :
  Forall (fun x => x <> c_slash) name ->
  starts_with [c_slash] ((splitext name).1 ++ c_underscore :: sfx) = false.
Proof.
  intros Hname. pose proof (splitext_app name) as Happ.
  destruct (splitext name).1 as [|x stem]; [done|].
  rewrite <- Happ in Hname. inversion Hname as [|? ? Hx _]; subst.
  cbn [app starts_with]. destruct (N.eqb_spec c_slash x); [congruence|done].
Qed.

(** The two parts of a name [st.e] without a slash, [e] holding no dot and
    [st] something else than dots. *)
Lemma splitext_dot st e :
  Forall (fun x => x <> c_slash) (st ++ c_dot :: e) ->
  Forall (fun x => x <> c_dot) e ->
  Exists (fun x => x <> c_dot) st ->
  splitext (st ++ c_dot :: e) = (st, c_dot :: e).
Proof.
  intros Hslash He Hst. unfold splitext.
  assert (Hsep : rfind c_slash (st ++ c_dot :: e) = (-1)%Z).
  { unfold rfind. by apply rfind_from_absent. }
  assert (Hdot : rfind c_dot (st ++ c_dot :: e) = Z.of_nat (length st)).
  { unfold rfind. rewrite rfind_from_app. cbn [rfind_from].
    rewrite N.eqb_refl. by rewrite rfind_from_absent. }
  rewrite Hsep, Hdot. destruct (Z.ltb_spec (-1) (Z.of_nat (length st))); [|lia].
  replace (Z.to_nat (Z.of_nat (length st) - (-1 + 1))) with (length st) by lia.
  change (Z.to_nat (-1 + 1)) with 0%nat. rewrite drop_0, take_app_length.
  destruct (forallb (fun c => c =? c_dot) st) eqn:Hall.
  - exfalso. rewrite forallb_forall in Hall.
    apply Exists_exists in Hst as (x & Hx & Hne). apply Hne.
    apply N.eqb_eq, Hall. by apply list_elem_of_In.
  - by rewrite Nat2Z.id, take_app_length, drop_app_length.
Qed.

(** The candidates in a directory that does not end in a slash, for the
    stem and the extension of a name without a slash. *)
Lemma candidate_shape o0 c name k :
  c <> c_slash -> Forall (fun x => x <> c_slash) name ->
  candidate (o0 ++ [c]) (splitext name).1 (splitext name).2 k
  = (o0 ++ [c]) ++ c_slash :: (splitext name).1
    ++ (if k =? 0 then lit "_cut" else lit "_cut_" ++ str_of_N k) ++ (splitext name).2.
Proof.
  intros Hc Hname. unfold candidate, first_path, numbered_path.
  destruct k as [|p]; cbn [N.eqb].
  - change (lit "_cut") with (c_underscore :: lit "cut").
    rewrite join_plain by (done || by apply stem_not_absolute).
    by rewrite <- app_assoc.
  - change (lit "_cut_") with (c_underscore :: lit "cut_").
    rewrite join_plain by (done || by apply stem_not_absolute).
    by rewrite <- !app_assoc.
Qed.

(** C4: the first candidate for the output path is the stem of the source
    with [_cut] and the extension, the later ones carry [_1], [_2], ...;
    the call runs with the first candidate, in this order, that does not
    exist, so the chosen path is not an existing one; and once the chosen
    path exists too, the next export of the same source chooses a
    candidate with a strictly larger number.  For a source [d/name] the
    candidates are the paths [dir/stem_cut.ext], [dir/stem_cut_1.ext],
    [dir/stem_cut_2.ext], ..., where [stem] and [ext] are the two parts of
    [name], split at its last dot, and [dir] is the output directory of the
    request or, when it gives none, the directory [d] of the source. *)
Theorem output_name_selection E req w :
  segments req <> [] ->
  let out_dir := default (dirname (source req)) (output_dir req) in
  let base := (splitext (basename (source req))).1 in
  let ext := (splitext (basename (source req))).2 in
  base ++ ext = basename (source req)
  /\ candidate out_dir base ext 0 = join out_dir (base ++ lit "_cut" ++ ext)
  /\ (forall k, 0 < k ->
        candidate out_dir base ext k
        = join out_dir (base ++ lit "_cut_" ++ str_of_N k ++ ext))
  /\ (exists k,
       handle_export E req w
       = Some (settle (try_body E req (candidate out_dir base ext k) w))
       /\ (candidate out_dir base ext k ∉ existing E)
       /\ (forall j, j < k -> candidate out_dir base ext j ∈ existing E)
       /\ forall E' w',
            existing E ∪ {[ candidate out_dir base ext k ]} ⊆ existing E' ->
            exists k',
              k < k'
              /\ handle_export E' req w'
                 = Some (settle (try_body E' req (candidate out_dir base ext k') w'))
              /\ (candidate out_dir base ext k' ∉ existing E')
              /\ forall j, j < k' -> candidate out_dir base ext j ∈ existing E')
  /\ forall d name o0 c,
       source req = d ++ c_slash :: name ->
       Forall (fun x => x <> c_slash) name ->
       c <> c_slash ->
       output_dir req = Some (o0 ++ [c]) \/ (output_dir req = None /\ d = o0 ++ [c]) ->
       let dir := o0 ++ [c] in
       let stem := (splitext name).1 in
       let sfx := (splitext name).2 in
       stem ++ sfx = name
       /\ (forall st e,
            name = st ++ c_dot :: e ->
            Forall (fun x => x <> c_dot) e -> Exists (fun x => x <> c_dot) st ->
            stem = st /\ sfx = c_dot :: e)
       /\ forall k,
            candidate out_dir base ext k
            = dir ++ c_slash :: stem
              ++ (if k =? 0 then lit "_cut" else lit "_cut_" ++ str_of_N k) ++ sfx.
Proof.
  intros Hsegs out_dir base ext. split; [apply splitext_app|].
  split; [done|]. split; [by intros [|p] Hk|]. split.
  - destruct (handle_export_runs E req w Hsegs) as (k & Hrun & Hfree & Hleast).
    exists k. repeat split; auto.
    intros E' w' Hsub.
    destruct (handle_export_runs E' req w' Hsegs) as (k' & Hrun' & Hfree' & Hleast').
    exists k'. repeat split; auto.
    destruct (N.lt_ge_cases k k') as [|Hle]; [done|]. exfalso.
    apply Hfree'. apply Hsub. destruct (N.eq_dec k' k) as [->|Hne].
    + set_solver.
    + apply elem_of_union_l. apply Hleast. lia.
  - intros d name o0 c Hsrc Hname Hc Hdir dir stem sfx.
    split; [apply splitext_app|]. split.
    { intros st e Hn He Hst. unfold stem, sfx. rewrite Hn in Hname |- *.
      by rewrite splitext_dot. }
    intros k.
    assert (Hb : basename (source req) = name).
    { rewrite Hsrc. by apply basename_after_slash. }
    assert (Hd : out_dir = dir).
    { unfold out_dir. destruct Hdir as [-> | [-> ->]]; [done|].
      rewrite Hsrc. by apply dirname_before_slash. }
    unfold base, ext. rewrite Hb, Hd. by apply candidate_shape.
Qed.

Lemma output_name_selection_witness :
  handle_export (export_env run_ok) (sample_request_to (lit "/out") [range_10_30]) world0
  = Some (settle (try_body (export_env run_ok)
                    (sample_request_to (lit "/out") [range_10_30])
                    (lit "/out/video_cut.mp4") world0))
  /\ (lit "/out/video_cut.mp4" ∉ existing (export_env run_ok))
  /\ lit "/movies/video_cut.mp4" ∈ existing (export_env run_ok).
Proof.
  destruct (output_name_selection (export_env run_ok)
              (sample_request_to (lit "/out") [range_10_30]) world0)
    as (_ & _ & _ & (k & Hrun & Hfree & Hleast & _) & Hpath).
  - discriminate.
  - destruct (Hpath (lit "/movies") (lit "video.mp4") (lit "/ou") 116) as (_ & _ & Hshape).
    + reflexivity.
    + repeat constructor; discriminate.
    + discriminate.
    + left. reflexivity.
    + assert (Hk : k = 0).
      { destruct k as [|p]; [done|]. exfalso.
        pose proof (Hleast 0 eq_refl) as Hin. rewrite (Hshape 0) in Hin.
        unfold export_env in Hin. cbn [existing] in Hin.
        apply elem_of_singleton in Hin. vm_compute in Hin. discriminate Hin. }
      subst k. rewrite (Hshape 0) in Hrun, Hfree.
      split; [exact Hrun|]. split; [exact Hfree|].
      unfold export_env. cbn [existing]. by apply elem_of_singleton.
Defined.

(** With [video_cut.mp4] present the export goes to [video_cut_1.mp4], and
    with that present too, to [video_cut_2.mp4]. *)
Example output_name_collision :
  let E1 := export_env run_ok in
  let E2 := {| existing := existing E1 ∪ {[ lit "/movies/video_cut_1.mp4" ]};
               run := run_ok; mkdtemp := mkdtemp E1;
               write_file := write_file E1; getsize := getsize E1 |} in
  free_path 3 E1 (lit "/movies") (lit "video") (lit ".mp4") 1
    (first_path (lit "/movies") (lit "video") (lit ".mp4"))
  = Some (lit "/movies/video_cut_1.mp4")
  /\ free_path 4 E2 (lit "/movies") (lit "video") (lit ".mp4") 1
       (first_path (lit "/movies") (lit "video") (lit ".mp4"))
     = Some (lit "/movies/video_cut_2.mp4").
Proof. split; by vm_compute. Qed.

(** C6: a request whose segment list is empty is answered with status 400
    and the "no segments" error; the state is returned unchanged, so no
    process has been spawned, no temporary directory created and no file
    written. *)
Theorem empty_segments_rejected E req w :
  segments req = [] ->
  handle_export E req w
  = Some ({| code := 400; payload := JError msg_no_segments |}, w)
  /\ forall r w',
       handle_export E req w = Some (r, w') ->
       spawned w' = spawned w /\ temp_dirs w' = temp_dirs w /\ written w' = written w.
Proof.
  intros Hsegs.
  assert (Hrun : handle_export E req w
                 = Some ({| code := 400; payload := JError msg_no_segments |}, w)).
  { unfold handle_export. by rewrite Hsegs. }
  split; [exact Hrun|]. intros r w' Hw'. rewrite Hrun in Hw'.
  by injection Hw' as _ <-.
Qed.

Lemma empty_segments_rejected_witness :
  handle_export (export_env run_ok) (sample_request []) world0
  = Some ({| code := 400; payload := JError msg_no_segments |}, world0).
Proof.
  apply (empty_segments_rejected (export_env run_ok) (sample_request []) world0).
  reflexivity.
Defined.

(** The single-segment branch spawns its one invocation and nothing else,
    however the call ends. *)
Lemma try_body_single E req target w seg :
  segments req = [seg] ->
  let res := settle (try_body E req target w) in
  res.2 = log_spawn (single_cmd (source req) (vflip req) seg target) w
  /\ code res.1 <> 400%Z.
Proof.
  intros Hseg. unfold try_body. rewrite Hseg. unfold bind, subprocess_run.
  destruct (run E _ _) as [rc err| |msg]; [|done..].
  cbn [fst snd]. destruct (rc =? 0)%Z; [|done].
  unfold ret. by destruct (getsize E target), (utf8_encodable target).
Qed.

Lemma handle_export_single E src od vf seg w :
  exists target r w',
    handle_export E {| source := src; segments := [seg]; output_dir := od; vflip := vf |} w
    = Some (r, w')
    /\ spawned w' = spawned w ++ [single_cmd src vf seg target]
    /\ temp_dirs w' = temp_dirs w
    /\ code r <> 400%Z.
Proof.
  set (req := {| source := src; segments := [seg]; output_dir := od; vflip := vf |}).
  destruct (handle_export_runs E req w) as (k & Hrun & _); [done|].
  destruct (try_body_single E req
              (candidate (default (dirname (source req)) (output_dir req))
                 (splitext (basename (source req))).1
                 (splitext (basename (source req))).2 k) w seg eq_refl) as [Hw Hcode].
  eexists _, _, _. split.
  - rewrite Hrun. apply f_equal. apply surjective_pairing.
  - by rewrite Hw.
Qed.

(** C8: the invocation built without the flip consists of the start
    offset, the duration, the stream copy [-c copy] and the remapping of the
    first timestamp to zero, and none of the re-encoding arguments; with the
    flip it carries the [vflip] filter, the constant-quality [libx264]
    re-encode and the copy of the audio stream.  The builder is a function
    of its inputs, and the single-segment call spawns exactly the
    invocation it builds. *)
Theorem invocation_codec_arguments src seg target :
  let ss := format_f 4 (t_in seg) in
  let t := format_f 4 (sub (t_out seg) (t_in seg)) in
  single_cmd src false seg target
  = [lit "ffmpeg"; lit "-y"; lit "-ss"; ss; lit "-i"; src; lit "-t"; t;
     lit "-c"; lit "copy";
     lit "-avoid_negative_ts"; lit "make_zero"; target]
  /\ single_cmd src true seg target
     = [lit "ffmpeg"; lit "-y"; lit "-ss"; ss; lit "-i"; src; lit "-t"; t;
        lit "-vf"; lit "vflip";
        lit "-c:v"; lit "libx264"; lit "-preset"; lit "medium"; lit "-crf"; lit "18";
        lit "-c:a"; lit "copy";
        lit "-avoid_negative_ts"; lit "make_zero"; target]
  /\ segment_cmd src false seg target
     = [lit "ffmpeg"; lit "-y"; lit "-ss"; ss; lit "-i"; src; lit "-t"; t;
        lit "-c"; lit "copy";
        lit "-avoid_negative_ts"; lit "make_zero"; lit "-f"; lit "mpegts"; target]
  /\ segment_cmd src true seg target
     = [lit "ffmpeg"; lit "-y"; lit "-ss"; ss; lit "-i"; src; lit "-t"; t;
        lit "-vf"; lit "vflip";
        lit "-c:v"; lit "libx264"; lit "-preset"; lit "medium"; lit "-crf"; lit "18";
        lit "-c:a"; lit "copy";
        lit "-avoid_negative_ts"; lit "make_zero"; lit "-f"; lit "mpegts"; target]
  /\ Forall (fun a => a ∉ [lit "-vf"; lit "vflip"; lit "-c:v"; lit "libx264";
                            lit "-preset"; lit "medium"; lit "-crf"; lit "18";
                            lit "-c:a"])
       (codec_args false)
  /\ forall E od vf w,
       exists out r w',
         handle_export E {| source := src; segments := [seg]; output_dir := od;
                            vflip := vf |} w = Some (r, w')
         /\ spawned w' = spawned w ++ [single_cmd src vf seg out].
Proof.
  intros ss t. repeat split.
  - unfold codec_args. repeat constructor; intros Hin;
      apply list_elem_of_In in Hin; vm_compute in Hin;
      repeat (destruct Hin as [Hin | Hin]; [discriminate|]); done.
  - intros E od vf w.
    destruct (handle_export_single E src od vf seg w) as (out & r & w' & H1 & H2 & _).
    by exists out, r, w'.
Qed.

(** C9: in every invocation the argument after [-ss] is the range's [in]
    and the argument after [-t] is the binary64 difference [out - in], each
    written as a decimal numeral with exactly four digits after the point
    that lies within half a unit of the fourth place of the value; for
    [in = 10.0] and [out = 30.0] the difference is the float [20.0] and the
    duration argument is [20.0000]. *)
Theorem invocation_times_four_decimals src vf seg target :
  is_finite (t_in seg) = true ->
  is_finite (sub (t_out seg) (t_in seg)) = true ->
  let duration := sub (t_out seg) (t_in seg) in
  (forall cmd,
     cmd = single_cmd src vf seg target \/ cmd = segment_cmd src vf seg target ->
     cmd !! 2%nat = Some (lit "-ss")
     /\ cmd !! 3%nat = Some (format_f 4 (t_in seg))
     /\ cmd !! 6%nat = Some (lit "-t")
     /\ cmd !! 7%nat = Some (format_f 4 duration))
  /\ fixed_point_numeral 4 (t_in seg) (format_f 4 (t_in seg))
  /\ fixed_point_numeral 4 duration (format_f 4 duration)
  /\ sub float_30 float_10 = S754_finite false 5629499534213120 (-48)
  /\ single_cmd src vf range_10_30 target !! 7%nat = Some (lit "20.0000").
Proof.
  intros Hin Hdur duration. split; [|split; [|split; [|split]]].
  - by intros cmd [-> | ->].
  - by apply format_f_fixed_point.
  - by apply format_f_fixed_point.
  - reflexivity.
  - reflexivity.
Qed.

Lemma invocation_times_four_decimals_witness :
  single_cmd (lit "/movies/video.mp4") false range_10_30 (lit "/movies/video_cut.mp4")
    !! 3%nat = Some (lit "10.0000")
  /\ single_cmd (lit "/movies/video.mp4") false range_10_30 (lit "/movies/video_cut.mp4")
    !! 7%nat = Some (lit "20.0000")
  /\ fixed_point_numeral 4 (sub float_30 float_10) (lit "20.0000").
Proof.
  destruct (invocation_times_four_decimals (lit "/movies/video.mp4") false range_10_30
              (lit "/movies/video_cut.mp4")) as (Hcmd & _ & Hnum & _).
  - reflexivity.
  - reflexivity.
  - destruct (Hcmd _ (or_introl eq_refl)) as (_ & Hss & _ & Ht).
    split; [exact Hss|]. split; [exact Ht|]. exact Hnum.
Defined.

(** C2, as stated, fails: a request whose only range has [out = 10.0]
    before [in = 30.0] is answered with a success, after one transcoder
    invocation with the duration [-20.0000]. *)
Lemma out_before_in_is_exported :
  leb (t_out range_30_10) (t_in range_30_10) = true
  /\ handle_export (export_env run_ok) (sample_request [range_30_10]) world0
     = Some ({| code := 200;
                payload := JSuccess (lit "/movies/video_cut_1.mp4") (lit "1.5 KB") |},
             {| spawned :=
                  [ [lit "ffmpeg"; lit "-y"; lit "-ss"; lit "30.0000";
                     lit "-i"; lit "/movies/video.mp4"; lit "-t"; lit "-20.0000";
                     lit "-c"; lit "copy"; lit "-avoid_negative_ts"; lit "make_zero";
                     lit "/movies/video_cut_1.mp4"] ];
                temp_dirs := ∅;
                written := [] |}).
Proof. split; reflexivity. Qed.

(** C2, amended: a range with [out <= in] is refused by the browser-side
    [addToCutList], which shows its alert and leaves the state as it was;
    the export handler does not examine the order of [in] and [out]: given
    such a range as its only segment it answers with a status other than
    400 after spawning the one invocation, whose duration argument is the
    formatted difference [out - in]. *)
Theorem range_order_checked_in_ui_only st i o :
  UI.inPoint st = Some i -> UI.outPoint st = Some o ->
  leb o i = true ->
  UI.addToCutList st = (st, Some UI.alert_order)
  /\ forall E src od vf w,
       exists target r w',
         handle_export E {| source := src;
                            segments := [{| t_in := i; t_out := o |}];
                            output_dir := od; vflip := vf |} w
         = Some (r, w')
         /\ code r <> 400%Z
         /\ spawned w' = spawned w ++ [single_cmd src vf {| t_in := i; t_out := o |} target]
         /\ single_cmd src vf {| t_in := i; t_out := o |} target !! 7%nat
            = Some (format_f 4 (sub o i)).
Proof.
  intros Hi Ho Hle. split.
  - unfold UI.addToCutList. by rewrite Hi, Ho, Hle.
  - intros E src od vf w.
    destruct (handle_export_single E src od vf {| t_in := i; t_out := o |} w)
      as (target & r & w' & H1 & H2 & _ & H3).
    exists target, r, w'. repeat split; auto.
Qed.

Lemma range_order_checked_in_ui_only_witness :
  UI.addToCutList {| UI.inPoint := Some float_30; UI.outPoint := Some float_10;
                     UI.cutList := [range_10_30] |}
  = ({| UI.inPoint := Some float_30; UI.outPoint := Some float_10;
        UI.cutList := [range_10_30] |}, Some UI.alert_order).
Proof.
  apply (range_order_checked_in_ui_only
           {| UI.inPoint := Some float_30; UI.outPoint := Some float_10;
              UI.cutList := [range_10_30] |} float_30 float_10);
    reflexivity.
Defined.

(** C1: a two-segment export whose first invocation runs into the timeout
    is answered with the timeout error 500 while the temporary directory it
    created remains. *)
Theorem timeout_leaves_temp_dir :
  handle_export (export_env run_timeout) (sample_request [range_10_30; range_40_55]) world0
  = Some ({| code := 500; payload := JError msg_timeout |},
          {| spawned := [ segment_cmd (lit "/movies/video.mp4") false range_10_30
                            (lit "/tmp/tmpk3v_x1/seg_0000.ts") ];
             temp_dirs := {[ sample_temp_dir ]};
             written := [] |})
  /\ sample_temp_dir ∈ ({[ sample_temp_dir ]} : gset (list N)).
Proof. split; [by vm_compute | by apply elem_of_singleton]. Qed.






(** When every invocation comes back with an exit status, the segment loop
    either returns early with the temporary directory removed or leaves the
    set of temporary directories as it was. *)
Lemma segments_loop_no_exception E src vf td : forall segs k tfs w,
  (forall h c, exists rc e, run E h c = Completed rc e) ->
  (exists r w', segments_loop E src vf td k segs tfs w = (Return r, w')
                /\ temp_dirs w' = temp_dirs w ∖ {[ td ]})
  \/ (exists tfs' w', segments_loop E src vf td k segs tfs w = (Next tfs', w')
                      /\ temp_dirs w' = temp_dirs w).
Proof.
  induction segs as [|seg rest IH]; intros k tfs w Hrun.
  - right. by eexists _, _.
  - destruct (Hrun (spawned w) (segment_cmd src vf seg (temp_file_name td k)))
      as (rc & e & He).
    assert (Hstep :
      segments_loop E src vf td k (seg :: rest) tfs w
      = if (rc =? 0)%Z
        then segments_loop E src vf td (S k) rest (tfs ++ [temp_file_name td k])
               (log_spawn (segment_cmd src vf seg (temp_file_name td k)) w)
        else (Return {| code := 500;
                        payload := JError (msg_segment ++ str_of_N (N.of_nat k + 1)
                                           ++ msg_segment_error ++ last_chars TAIL e) |},
              rmtree td (log_spawn (segment_cmd src vf seg (temp_file_name td k)) w))).
    { cbn [segments_loop]. unfold bind at 1.
      rewrite (subprocess_run_completed _ _ _ _ _ He). cbn [fst snd].
      by destruct (rc =? 0)%Z. }
    rewrite Hstep. destruct (rc =? 0)%Z.
    + apply (IH (S k) _ (log_spawn (segment_cmd src vf seg (temp_file_name td k)) w) Hrun).
    + left. by eexists _, _.
Qed.

(** X12: where no exception is raised, the multi-segment branch removes its
    temporary directory before the reply. *)
Lemma temp_dir_removed_without_exception E req w td :
  (2 <= length (segments req))%nat ->
  mkdtemp E = Ok td ->
  (forall h c, exists rc e, run E h c = Completed rc e) ->
  (forall p c, write_file E p c = None) ->
  exists r w', handle_export E req w = Some (r, w') /\ (td ∉ temp_dirs w').
Proof.
  intros Hlen Hmk Hrun Hwrite.
  destruct (handle_export_runs E req w) as (k & Hexp & _).
  { intros Hnil. rewrite Hnil in Hlen. cbn in Hlen. lia. }
  rewrite Hexp. set (target := candidate _ _ _ k). clearbody target.
  assert (Hgone : forall X : gset (list N), td ∉ (X ∪ {[ td ]}) ∖ {[ td ]}).
  { intros X Hin. apply elem_of_difference in Hin as [_ Hn]. apply Hn.
    by apply elem_of_singleton. }
  unfold try_body.
  destruct (segments req) as [|s1 [|s2 rest]] eqn:Hsegs; [cbn in Hlen; lia..|].
  rewrite Hmk. unfold bind at 1 2 3. unfold bind at 1. unfold modify at 1. unfold ret at 1.
  destruct (segments_loop_no_exception E (source req) (vflip req) td
              (s1 :: s2 :: rest) 0 [] (add_temp_dir td w) Hrun)
    as [(r & w1 & -> & Hw1) | (tfs & w1 & -> & Hw1)].
  - eexists _, _. split; [reflexivity|]. rewrite Hw1. apply Hgone.
  - rewrite Hwrite. unfold bind at 1. unfold modify at 1. unfold bind at 1.
    destruct (Hrun (spawned (log_write (join td (lit "concat.txt")) (manifest tfs) w1))
                (concat_cmd (join td (lit "concat.txt")) target)) as (rc & e & He).
    rewrite (subprocess_run_completed _ _ _ _ _ He). unfold bind at 1. unfold modify at 1.
    cbn [fst snd]. destruct (rc =? 0)%Z.
    + unfold ret at 1. destruct (getsize E target), (utf8_encodable target);
        (eexists _, _; split; [reflexivity|]); cbn; rewrite Hw1; apply Hgone.
    + eexists _, _. split; [reflexivity|]. cbn. rewrite Hw1. apply Hgone.
Qed.










(** Three ranges: three segment invocations, then the concatenation. *)
Example three_ranges_four_invocations :
  exists r w',
    handle_export (export_env run_ok)
      (sample_request [range_10_30; range_40_55; range_10_30]) world0 = Some (r, w')
    /\ code r = 200%Z
    /\ spawned w'
       = segment_cmds (lit "/movies/video.mp4") false sample_temp_dir 0
           [range_10_30; range_40_55; range_10_30]
         ++ [concat_cmd (lit "/tmp/tmpk3v_x1/concat.txt") (lit "/movies/video_cut_1.mp4")]
    /\ length (spawned w') = 4%nat
    /\ temp_dirs w' = ∅.
Proof. eexists _, _. split; [by vm_compute|]. repeat split. Qed.

End ExporterFacts.

(** * The media server: malformed and out-of-range requests *)

Section ServerEdges.

Import Py Server Sample.

Lemma parse_range_no_dash n size :
  parse_range (lit "bytes=" ++ str_of_N n) size = inl IndexError.
Proof.
  unfold parse_range. rewrite lit_bytes_eq, replace_prefix by apply digits_no_b.
  rewrite split_no_sep by apply digits_no_minus.
  by rewrite int_or_str_of_N.
Qed.

Ltac range_branch' Hfile Hparse :=
  unfold closed_range, open_range, suffix_range;
  change (lit "bytes=") with (98 :: lit "ytes="); cbn [app];
  erewrite serve_video_parsed; [ | exact Hfile | apply Hparse | lia ].

Lemma serve_video_raises E path content c h e :
  files E !! unquote E (drop 7 path) = Some content ->
  parse_range (c :: h) (Z.of_nat (length content)) = inl e ->
  serve_video E path (Some (c :: h)) = Some (Raised e).
Proof.
  intros Hfile Hparse. unfold serve_video.
  change (length (lit "/video/")) with 7%nat. by rewrite Hfile, Hparse.
Qed.

(** X1: a [Range] header that holds no [-] after its unit, such as
    [bytes=200] or [bytes=], makes the handler raise [IndexError]: no
    response is written.  The number is one below [2 ^ 63]. *)
Theorem range_without_dash_raises E path content (n : N) :
  files E !! unquote E (drop 7 path) = Some content ->
  n < 2 ^ 63 ->
  serve_video E path (Some (lit "bytes=" ++ str_of_N n)) = Some (Raised IndexError)
  /\ serve_video E path (Some (lit "bytes=")) = Some (Raised IndexError).
Proof.
  intros Hfile Hbound. split.
  - change (lit "bytes=" ++ str_of_N n) with (98 :: (lit "ytes=" ++ str_of_N n)).
    apply (serve_video_raises E path content); [done|].
    apply (parse_range_no_dash n).
  - change (lit "bytes=") with (98 :: lit "ytes=").
    by apply (serve_video_raises E path content).
Qed.

Lemma range_without_dash_raises_witness :
  serve_video sample_env sample_path (Some (lit "bytes=200")) = Some (Raised IndexError).
Proof.
  apply (range_without_dash_raises sample_env sample_path sample_content 200).
  - vm_compute. reflexivity.
  - vm_compute. reflexivity.
Defined.

(** X2: a range within the file whose end lies before its start is
    answered with status 206 and an empty body; the declared
    [Content-Length] is [end - start + 1], that is [0] or a negative
    number. *)
Theorem inverted_range_empty_body E path content (start end_ : N) :
  files E !! unquote E (drop 7 path) = Some content ->
  end_ < start ->
  start <= N.of_nat (length content) ->
  serve_video E path (Some (closed_range start end_))
  = Some (Sent {|
      status := 206;
      headers :=
        [ (lit "Content-Type", content_type_of E (unquote E (drop 7 path)));
          (lit "Content-Range",
            lit "bytes " ++ str_of_N start ++ lit "-" ++ str_of_N end_
            ++ lit "/" ++ str_of_N (N.of_nat (length content)));
          (lit "Content-Length",
            if start =? end_ + 1 then lit "0"
            else c_minus :: str_of_N (start - end_ - 1));
          (lit "Accept-Ranges", lit "bytes") ];
      body := [] |}).
Proof.
  intros Hfile Hinv Hstart. range_branch' Hfile (parse_range_closed start end_).
  rewrite !str_of_int_of_N, <- (nat_N_Z (length content)), str_of_int_of_N.
  replace (Z.to_nat (Z.of_N end_ - Z.of_N start + 1)) with 0%nat by lia.
  rewrite take_0. do 6 f_equal.
  unfold str_of_int. destruct (N.eqb_spec start (end_ + 1)) as [->|Hne].
  - replace (Z.of_N end_ - Z.of_N (end_ + 1) + 1)%Z with 0%Z by lia. reflexivity.
  - destruct (Z.ltb_spec (Z.of_N end_ - Z.of_N start + 1) 0); [|lia].
    replace (Z.of_N end_ - Z.of_N start + 1)%Z
      with (- Z.of_N (start - end_ - 1))%Z by lia.
    by rewrite Zabs2N.inj_opp, Zabs2N.id.
Qed.

Lemma inverted_range_empty_body_witness :
  exists hdrs,
    serve_video sample_env sample_path (Some (lit "bytes=500-200"))
    = Some (Sent {| status := 206; headers := hdrs; body := [] |})
    /\ hdrs !! 2%nat = Some (lit "Content-Length", lit "-299").
Proof.
  eexists. split.
  - apply (inverted_range_empty_body sample_env sample_path sample_content 500 200).
    + vm_compute. reflexivity.
    + vm_compute. reflexivity.
    + vm_compute. discriminate.
  - reflexivity.
Defined.

(** X3: when the start lies inside the file and the end at or
    beyond its size, below [2 ^ 63], the declared [Content-Length] is still
    [end - start + 1], more than the [size - start] bytes the body holds. *)
Theorem declared_length_not_clipped E path content (start end_ : N) :
  files E !! unquote E (drop 7 path) = Some content ->
  start < N.of_nat (length content) -> N.of_nat (length content) <= end_ ->
  end_ < 2 ^ 63 ->
  exists r,
    serve_video E path (Some (closed_range start end_)) = Some (Sent r)
    /\ headers r !! 2%nat = Some (lit "Content-Length", str_of_N (end_ - start + 1))
    /\ N.of_nat (length (body r)) = N.of_nat (length content) - start
    /\ N.of_nat (length (body r)) < end_ - start + 1.
Proof.
  intros Hfile Hstart Hend Hbound. eexists. split.
  - range_branch' Hfile (parse_range_closed start end_). reflexivity.
  - cbn [headers body]. split; [|split].
    + cbn. do 2 f_equal.
      replace (Z.of_N end_ - Z.of_N start + 1)%Z with (Z.of_N (end_ - start + 1)) by lia.
      apply str_of_int_of_N.
    + rewrite length_take, length_drop. lia.
    + rewrite length_take, length_drop. lia.
Qed.

Lemma declared_length_not_clipped_witness :
  exists r,
    serve_video sample_env sample_path (Some (lit "bytes=900-5000")) = Some (Sent r)
    /\ headers r !! 2%nat = Some (lit "Content-Length", lit "4101")
    /\ N.of_nat (length (body r)) = 100
    /\ N.of_nat (length (body r)) < 4101.
Proof.
  apply (declared_length_not_clipped sample_env sample_path sample_content 900 5000).
  - vm_compute. reflexivity.
  - vm_compute. reflexivity.
  - vm_compute. discriminate.
  - vm_compute. reflexivity.
Defined.

(** X4: the bodies of two adjacent ranges inside the file,
    [a .. b] and [b+1 .. c], put together are the body of [a .. c]; and the
    bodies of [0 .. b] and of the open range from [b + 1] put together are
    the whole file. *)
Theorem consecutive_ranges_reassemble E path content (a b c : N) :
  files E !! unquote E (drop 7 path) = Some content ->
  a <= b -> b < c -> c < N.of_nat (length content) ->
  exists r1 r2 r3 r4 r5,
    serve_video E path (Some (closed_range a b)) = Some (Sent r1)
    /\ serve_video E path (Some (closed_range (b + 1) c)) = Some (Sent r2)
    /\ serve_video E path (Some (closed_range a c)) = Some (Sent r3)
    /\ body r1 ++ body r2 = body r3
    /\ serve_video E path (Some (closed_range 0 b)) = Some (Sent r4)
    /\ serve_video E path (Some (open_range (b + 1))) = Some (Sent r5)
    /\ body r4 ++ body r5 = content.
Proof.
  intros Hfile Hab Hbc Hc. eexists _, _, _, _, _.
  split; [range_branch' Hfile (parse_range_closed a b); reflexivity|].
  split; [range_branch' Hfile (parse_range_closed (b + 1) c); reflexivity|].
  split; [range_branch' Hfile (parse_range_closed a c); reflexivity|].
  split.
  { cbn [body]. rewrite !Z_of_N_to_nat.
    replace (N.to_nat (b + 1)) with (N.to_nat a + Z.to_nat (Z.of_N b - Z.of_N a + 1))%nat by lia.
    rewrite <- drop_drop, take_take_drop. f_equal. lia. }
  split; [range_branch' Hfile (parse_range_closed 0 b); reflexivity|].
  split; [range_branch' Hfile (parse_range_open (b + 1)); reflexivity|].
  cbn [body]. rewrite !Z_of_N_to_nat. change (N.to_nat 0) with 0%nat. rewrite drop_0.
  rewrite (take_ge (drop (N.to_nat (b + 1)) content)) by (rewrite length_drop; lia).
  replace (Z.to_nat (Z.of_N b - Z.of_N 0 + 1)) with (N.to_nat (b + 1)) by lia.
  apply take_drop.
Qed.

Lemma consecutive_ranges_reassemble_witness :
  exists r1 r2 r3 r4 r5,
    serve_video sample_env sample_path (Some (lit "bytes=100-299")) = Some (Sent r1)
    /\ serve_video sample_env sample_path (Some (lit "bytes=300-599")) = Some (Sent r2)
    /\ serve_video sample_env sample_path (Some (lit "bytes=100-599")) = Some (Sent r3)
    /\ body r1 ++ body r2 = body r3
    /\ serve_video sample_env sample_path (Some (lit "bytes=0-299")) = Some (Sent r4)
    /\ serve_video sample_env sample_path (Some (lit "bytes=300-")) = Some (Sent r5)
    /\ body r4 ++ body r5 = sample_content.
Proof.
  apply (consecutive_ranges_reassemble sample_env sample_path sample_content 100 299 599).
  - vm_compute. reflexivity.
  - vm_compute. discriminate.
  - vm_compute. reflexivity.
  - vm_compute. reflexivity.
Defined.

Lemma parse_range_bare s e size :
  parse_range (str_of_N s ++ c_minus :: str_of_N e) size = inr (Z.of_N s, Z.of_N e).
Proof.
  unfold parse_range. rewrite lit_bytes_eq. unfold replace.
  rewrite replace_from_absent.
  2:{ apply Forall_app. split; [apply digits_no_b|].
      constructor; [done | apply digits_no_b]. }
  rewrite split_app by apply digits_no_minus.
  rewrite split_no_sep by apply digits_no_minus.
  by rewrite !int_or_str_of_N.
Qed.

Lemma serve_video_same_parse E path c1 h1 c2 h2 :
  (forall size, parse_range (c1 :: h1) size = parse_range (c2 :: h2) size) ->
  serve_video E path (Some (c1 :: h1)) = serve_video E path (Some (c2 :: h2)).
Proof.
  intros H. unfold serve_video. destruct (files E !! _); [|done]. by rewrite H.
Qed.

(** X5: the unit prefix is optional: the header [S-E] is answered
    exactly as [bytes=S-E]. *)
Theorem range_unit_prefix_optional E path (s e : N) :
  serve_video E path (Some (str_of_N s ++ c_minus :: str_of_N e))
  = serve_video E path (Some (closed_range s e)).
Proof.
  unfold closed_range. change (lit "bytes=") with (98 :: lit "ytes="). cbn [app].
  pose proof (str_of_N_nonempty s) as Hne.
  pose proof (parse_range_bare s e) as Hbare.
  destruct (str_of_N s) as [|c t] eqn:Hs; [done|]. cbn [app] in *.
  apply serve_video_same_parse. intros size. rewrite Hbare.
  pose proof (parse_range_closed s e size) as Hc. unfold closed_range in Hc.
  rewrite Hs in Hc. symmetry. exact Hc.
Qed.

End ServerEdges.

(** * The export orchestrator: the other ways a call ends *)

Section ExporterEdges.

Import Py PyFloat PosixPath Exporter Sample.

(** The single-segment branch, by what its one invocation comes back with. *)
Lemma try_body_single_cases E req target w seg :
  segments req = [seg] ->
  let cmd := single_cmd (source req) (vflip req) seg target in
  settle (try_body E req target w)
  = (match run E (spawned w) cmd with
     | Completed rc err =>
         if (rc =? 0)%Z then
           match getsize E target with
           | Ok size =>
               if utf8_encodable target
               then {| code := 200; payload := JSuccess target (format_size size) |}
               else {| code := 500; payload := JError (success_encode_error target) |}
           | Err msg => {| code := 500; payload := JError msg |}
           end
         else {| code := 500;
                 payload := JError (msg_ffmpeg_error ++ last_chars TAIL err) |}
     | TimedOut => {| code := 500; payload := JError msg_timeout |}
     | SpawnFailed msg => {| code := 500; payload := JError msg |}
     end, log_spawn cmd w).
Proof.
  intros Hseg cmd. unfold try_body. rewrite Hseg. unfold bind, subprocess_run.
  fold cmd. destruct (run E _ _) as [rc err| |msg]; [|done..].
  cbn [fst snd]. destruct (rc =? 0)%Z; [|done].
  unfold ret. by destruct (getsize E target), (utf8_encodable target).
Qed.



(** X7: when the invocation of a single-segment export exits with
    status 0 but the size of the output cannot be read, the reply is the
    error 500 with the text of that exception, not a success. *)
Theorem missing_output_is_an_error E req w seg msg :
  segments req = [seg] ->
  (forall cmd, exists err, run E (spawned w) cmd = Completed 0 err) ->
  (forall p, getsize E p = Err msg) ->
  exists target,
    handle_export E req w
    = Some ({| code := 500; payload := JError msg |},
            log_spawn (single_cmd (source req) (vflip req) seg target) w).
Proof.
  intros Hseg Hrun Hsize.
  destruct (handle_export_runs E req w) as (k & Hexp & _); [by rewrite Hseg|].
  eexists. rewrite Hexp, (try_body_single_cases _ _ _ _ seg Hseg).
  destruct (Hrun (single_cmd (source req) (vflip req) seg
                    (candidate (default (dirname (source req)) (output_dir req))
                       (splitext (basename (source req))).1
                       (splitext (basename (source req))).2 k))) as [err ->].
  cbn [Z.eqb]. by rewrite Hsize.
Qed.

Lemma missing_output_is_an_error_witness :
  exists target,
    handle_export
      {| existing := ∅; run := run_ok; mkdtemp := Ok sample_temp_dir;
         write_file := fun _ _ => None;
         getsize := fun _ => Err (lit "[Errno 2] No such file or directory") |}
      (sample_request [range_10_30]) world0
    = Some ({| code := 500;
               payload := JError (lit "[Errno 2] No such file or directory") |},
            log_spawn (single_cmd (lit "/movies/video.mp4") false range_10_30 target) world0).
Proof.
  apply (missing_output_is_an_error
           {| existing := ∅; run := run_ok; mkdtemp := Ok sample_temp_dir;
              write_file := fun _ _ => None;
              getsize := fun _ => Err (lit "[Errno 2] No such file or directory") |}
           (sample_request [range_10_30]) world0 range_10_30).
  - reflexivity.
  - intros cmd. by eexists.
  - reflexivity.
Defined.

(** X8: when the temporary directory of a multi-segment export
    cannot be created, the reply is the error 500 with the text of the
    exception, and nothing has been spawned or written. *)
Theorem mkdtemp_failure_reply E req w msg :
  (2 <= length (segments req))%nat ->
  mkdtemp E = Err msg ->
  handle_export E req w = Some ({| code := 500; payload := JError msg |}, w).
Proof.
  intros Hlen Hmk.
  destruct (handle_export_runs E req w) as (k & Hexp & _).
  { intros Hnil. rewrite Hnil in Hlen. cbn in Hlen. lia. }
  rewrite Hexp. unfold try_body.
  destruct (segments req) as [|s1 [|s2 rest]] eqn:Hsegs; [cbn in Hlen; lia..|].
  by rewrite Hmk.
Qed.

Lemma mkdtemp_failure_reply_witness :
  handle_export
    {| existing := ∅; run := run_ok; mkdtemp := Err (lit "[Errno 28] No space left on device");
       write_file := fun _ _ => None; getsize := fun _ => Ok 0%Z |}
    (sample_request [range_10_30; range_40_55]) world0
  = Some ({| code := 500; payload := JError (lit "[Errno 28] No space left on device") |},
          world0).
Proof.
  apply (mkdtemp_failure_reply
           {| existing := ∅; run := run_ok;
              mkdtemp := Err (lit "[Errno 28] No space left on device");
              write_file := fun _ _ => None; getsize := fun _ => Ok 0%Z |}
           (sample_request [range_10_30; range_40_55]) world0).
  - vm_compute. lia.
  - reflexivity.
Defined.

Lemma segments_loop_times_out E src vf td : forall segs k tfs w i cmd_i,
  let cmds := segment_cmds src vf td k segs in
  (forall j cmd, (j < i)%nat -> cmds !! j = Some cmd ->
     exists e, run E (spawned w ++ take j cmds) cmd = Completed 0 e) ->
  cmds !! i = Some cmd_i ->
  run E (spawned w ++ take i cmds) cmd_i = TimedOut ->
  segments_loop E src vf td k segs tfs w
  = (Raise TimeoutExpired, log_spawns (take (S i) cmds) w).
Proof.
  induction segs as [|seg rest IH]; intros k tfs w i cmd_i cmds Hok Hi Hrun; [done|].
  subst cmds. cbn [segment_cmds segments_loop] in *. unfold bind at 1.
  destruct i as [|i].
  - cbn in Hi, Hrun. injection Hi as <-. rewrite app_nil_r in Hrun.
    unfold subprocess_run. rewrite Hrun.
    cbn [take]. by rewrite log_spawns_cons, log_spawns_nil.
  - destruct (Hok 0%nat _ ltac:(lia) eq_refl) as [e He].
    cbn in He. rewrite app_nil_r in He.
    rewrite (subprocess_run_completed _ _ _ _ _ He). cbn [fst snd Z.eqb].
    rewrite (IH (S k) _ _ i cmd_i); auto.
    + cbn [take]. by rewrite log_spawns_cons.
    + intros j cmd Hj Hcmd. destruct (Hok (S j) cmd ltac:(lia) Hcmd) as [e' He'].
      exists e'. cbn in He' |- *. by rewrite <- app_assoc.
    + cbn in Hrun |- *. by rewrite <- app_assoc.
Qed.

(** X9: in a multi-segment export, when the invocations of the
    segments before index [i] exit with status 0 and the one at index [i]
    runs into the timeout, the reply is the timeout error 500; exactly the
    invocations of the segments [0 .. i] have been spawned, and the
    temporary directory is still among the live ones. *)
Theorem segment_timeout_reply E req w temp_dir i cmd_i :
  (2 <= length (segments req))%nat ->
  mkdtemp E = Ok temp_dir ->
  let cmds := segment_cmds (source req) (vflip req) temp_dir 0 (segments req) in
  (forall j cmd, (j < i)%nat -> cmds !! j = Some cmd ->
     exists e, run E (spawned w ++ take j cmds) cmd = Completed 0 e) ->
  cmds !! i = Some cmd_i ->
  run E (spawned w ++ take i cmds) cmd_i = TimedOut ->
  handle_export E req w
  = Some ({| code := 500; payload := JError msg_timeout |},
          {| spawned := spawned w ++ take (S i) cmds;
             temp_dirs := temp_dirs w ∪ {[ temp_dir ]};
             written := written w |}).
Proof.
  intros Hlen Hmk cmds Hok Hi Hrun.
  destruct (handle_export_runs E req w) as (k & Hexp & _).
  { intros Hnil. rewrite Hnil in Hlen. cbn in Hlen. lia. }
  rewrite Hexp. unfold try_body. subst cmds.
  destruct (segments req) as [|s1 [|s2 rest]] eqn:Hsegs; [cbn in Hlen; lia..|].
  rewrite Hmk. unfold bind at 1 2 3. unfold bind at 1. unfold modify at 1. unfold ret at 1.
  by rewrite (segments_loop_times_out E (source req) (vflip req) temp_dir
                (s1 :: s2 :: rest) 0 [] (add_temp_dir temp_dir w) i cmd_i).
Qed.

Lemma segment_timeout_reply_witness :
  handle_export
    (export_env (fun history _ => match history with [_] => TimedOut | _ => Completed 0 [] end))
    (sample_request [range_10_30; range_40_55; range_10_30]) world0
  = Some ({| code := 500; payload := JError msg_timeout |},
          {| spawned :=
               [] ++ take 2 (segment_cmds (lit "/movies/video.mp4") false sample_temp_dir 0
                               [range_10_30; range_40_55; range_10_30]);
             temp_dirs := ∅ ∪ {[ sample_temp_dir ]};
             written := [] |}).
Proof.
  apply (segment_timeout_reply
           (export_env (fun history _ =>
                          match history with [_] => TimedOut | _ => Completed 0 [] end))
           (sample_request [range_10_30; range_40_55; range_10_30]) world0
           sample_temp_dir 1
           (segment_cmd (lit "/movies/video.mp4") false range_40_55
              (temp_file_name sample_temp_dir 1))).
  - vm_compute. lia.
  - reflexivity.
  - intros j cmd Hj Hcmd. destruct j as [|j]; [|lia]. by eexists.
  - reflexivity.
  - reflexivity.
Defined.




Lemma temp_dir_removed_without_exception_witness :
  exists r w',
    handle_export (export_env run_second_fails)
      (sample_request [range_10_30; range_40_55; range_10_30]) world0 = Some (r, w')
    /\ (sample_temp_dir ∉ temp_dirs w').
Proof.
  apply (temp_dir_removed_without_exception (export_env run_second_fails)
           (sample_request [range_10_30; range_40_55; range_10_30]) world0 sample_temp_dir).
  - vm_compute. lia.
  - reflexivity.
  - intros h c. unfold export_env, run_second_fails. cbn [run].
    destruct h as [|? [|? ?]]; by eexists _, _.
  - reflexivity.
Defined.

(** X13: the output paths the name loop tries are pairwise
    different: the unnumbered one and those of different counters. *)
Theorem candidate_paths_distinct d b e (j k : N) :
  j <> k -> candidate d b e j <> candidate d b e k.
Proof.
  assert (Hzero : forall n, 0 < n -> candidate d b e 0 <> candidate d b e n).
  { intros n Hn Heq. destruct n as [|p]; [lia|].
    unfold candidate, first_path, numbered_path in Heq.
    change (lit "_cut_") with (lit "_cut" ++ [c_underscore]) in Heq.
    rewrite <- (app_assoc (lit "_cut")), !(app_assoc b) in Heq.
    apply join_inj_suffix in Heq; [|by destruct b].
    apply (f_equal length) in Heq. rewrite !length_app in Heq.
    cbn [length] in Heq. lia. }
  intros Hjk Heq. destruct j as [|pj], k as [|pk]; [done| | |].
  - by apply (Hzero (Npos pk)).
  - by apply (Hzero (Npos pj)).
  - by apply numbered_path_inj in Heq.
Qed.

Lemma candidate_paths_distinct_witness :
  candidate (lit "/movies") (lit "video") (lit ".mp4") 0
  <> candidate (lit "/movies") (lit "video") (lit ".mp4") 3.
Proof.
  apply (candidate_paths_distinct (lit "/movies") (lit "video") (lit ".mp4") 0 3).
  discriminate.
Defined.

(** X14: without an [output_dir], for a source [dir/name] whose
    [dir] does not end in a slash, the export runs with the target
    [dir/stem_cut.ext] or [dir/stem_cut_k.ext], a path that does not exist,
    [stem] and [ext] being the two parts of [name]. *)
Theorem default_output_beside_source E d0 c name seg segs vf w :
  c <> c_slash -> Forall (fun x => x <> c_slash) name ->
  let dir := d0 ++ [c] in
  let req := {| source := dir ++ c_slash :: name; segments := seg :: segs;
                output_dir := None; vflip := vf |} in
  let stem := (splitext name).1 in
  let ext := (splitext name).2 in
  stem ++ ext = name
  /\ exists k,
       let target :=
         dir ++ c_slash :: stem
         ++ (if k =? 0 then lit "_cut" else lit "_cut_" ++ str_of_N k) ++ ext in
       handle_export E req w = Some (settle (try_body E req target w))
       /\ (target ∉ existing E).
Proof.
  intros Hc Hname dir req stem ext. split; [apply splitext_app|].
  assert (Hd : default (dirname (source req)) (output_dir req) = dir).
  { by apply dirname_before_slash. }
  assert (Hb : basename (source req) = name).
  { by apply basename_after_slash. }
  destruct (handle_export_runs E req w) as (k & Hexp & Hfree & _); [done|].
  rewrite Hd, Hb in Hexp, Hfree. fold stem ext in Hexp, Hfree.
  assert (Hshape : candidate dir stem ext k
                   = dir ++ c_slash :: stem
                     ++ (if k =? 0 then lit "_cut" else lit "_cut_" ++ str_of_N k) ++ ext).
  { unfold candidate, first_path, numbered_path, dir, stem.
    destruct k as [|p]; cbn [N.eqb].
    - change (lit "_cut") with (c_underscore :: lit "cut").
      rewrite join_plain by (done || by apply stem_not_absolute).
      by rewrite <- app_assoc.
    - change (lit "_cut_") with (c_underscore :: lit "cut_").
      rewrite join_plain by (done || by apply stem_not_absolute).
      by rewrite <- !app_assoc. }
  exists k. cbn zeta. rewrite <- Hshape. by split.
Qed.

Lemma default_output_beside_source_witness :
  exists k,
    let target :=
      lit "/movies" ++ c_slash :: lit "video"
      ++ (if k =? 0 then lit "_cut" else lit "_cut_" ++ str_of_N k) ++ lit ".mp4" in
    handle_export (export_env run_ok) (sample_request [range_10_30]) world0
    = Some (settle (try_body (export_env run_ok) (sample_request [range_10_30]) target world0))
    /\ (target ∉ existing (export_env run_ok)).
Proof.
  destruct (default_output_beside_source (export_env run_ok) (lit "/movie") 115
              (lit "video.mp4") range_10_30 [] false world0) as (_ & k & Hk).
  - discriminate.
  - repeat constructor; discriminate.
  - exists k. exact Hk.
Defined.

(** X15: a size of [k] units, [1 <= k < 1024], for each of the
    units B, KB, MB, GB and TB (powers of 1024) is written as [k.0] followed
    by the unit; the size 0 is written [0.0 B]. *)
Theorem format_size_exact_multiples (j : nat) (unit : list N) (k : N) :
  [lit "B"; lit "KB"; lit "MB"; lit "GB"; lit "TB"] !! j = Some unit ->
  1 <= k < 1024 ->
  format_size (1024 ^ Z.of_nat j * Z.of_N k) = str_of_N k ++ lit ".0 " ++ unit
  /\ format_size 0 = lit "0.0 B".
Proof.
  intros Hunit Hk. split; [|reflexivity].
  assert (Hall :
    forallb (fun ju : nat * list N =>
      forallb (fun i : nat =>
        bool_decide (format_size (1024 ^ Z.of_nat ju.1 * Z.of_nat i)
                     = str_of_N (N.of_nat i) ++ lit ".0 " ++ ju.2))
        (seq 1 1023))
      [(0, lit "B"); (1, lit "KB"); (2, lit "MB"); (3, lit "GB"); (4, lit "TB")]%nat
    = true) by (vm_compute; reflexivity).
  rewrite forallb_forall in Hall.
  assert (Hju : In (j, unit)
                  [(0, lit "B"); (1, lit "KB"); (2, lit "MB"); (3, lit "GB"); (4, lit "TB")]%nat).
  { do 5 (destruct j as [|j]; [injection Hunit as <-; cbn; tauto|]). done. }
  specialize (Hall _ Hju). cbn [fst snd] in Hall. rewrite forallb_forall in Hall.
  specialize (Hall (N.to_nat k)). rewrite bool_decide_eq_true in Hall.
  rewrite N2Nat.id, N_nat_Z in Hall. apply Hall. apply in_seq. lia.
Qed.

Lemma format_size_exact_multiples_witness :
  format_size (1024 * 500) = lit "500.0 KB" /\ format_size 0 = lit "0.0 B".
Proof.
  apply (format_size_exact_multiples 1 (lit "KB") 500).
  - reflexivity.
  - lia.
Defined.

End ExporterEdges.

(** * Finding the programs *)

Section LauncherFacts.

Import Py PosixPath Launcher.

Lemma first_dir_spec E dirs :
  match first_dir E dirs with
  | Some d =>
      exists pre post,
        dirs = pre ++ d :: post /\ has_both E d = true
        /\ Forall (fun x => has_both E x = false) pre
  | None => Forall (fun x => has_both E x = false) dirs
  end.
Proof.
  induction dirs as [|d rest IH]; [constructor|]. cbn [first_dir].
  destruct (has_both E d) eqn:Hd.
  - exists [], rest. by repeat split.
  - destruct (first_dir E rest) as [d'|].
    + destruct IH as (pre & post & -> & Hd' & Hpre).
      exists (d :: pre), post. repeat split; [done|]. by constructor.
    + by constructor.
Qed.


Lemma find_ffmpeg_dir E c d :
  find_ffmpeg E = Some (c :: d) ->
  has_both E (c :: d) = true /\ c :: d ∈ search_paths E.
Proof.
  unfold find_ffmpeg. pose proof (first_dir_spec E (search_paths E)) as H.
  destruct (first_dir E (search_paths E)) as [d'|].
  - intros [= ->]. destruct H as (pre & post & -> & Hd & _).
    split; [done|]. apply elem_of_app. right. left.
  - by destruct (on_path E).
Qed.

(** X17: [main] exits with status 1 only when no directory of the
    search list holds both programs and they are not both on [PATH];
    otherwise the server starts with [PATH] unchanged or with a directory of
    the search list that holds both programs put in front of it. *)
Theorem main_start_result E path_var :
  match main_start E path_var with
  | Exit status =>
      status = 1%Z
      /\ Forall (fun x => has_both E x = false) (search_paths E)
      /\ on_path E = false
  | Serve p =>
      p = path_var
      \/ (exists dir,
            dir ∈ search_paths E
            /\ has_both E dir = true
            /\ p = Some (dir ++ lit ":" ++ default [] path_var))
  end.
Proof.
  unfold main_start. pose proof (find_ffmpeg_dir E) as Hdir.
  pose proof (first_dir_spec E (search_paths E)) as Hfirst.
  unfold find_ffmpeg in *.
  destruct (first_dir E (search_paths E)) as [[|c d]|].
  - by left.
  - right. destruct (Hdir c d eq_refl) as [Hboth Hin]. by exists (c :: d).
  - destruct (on_path E); [by left | by repeat split].
Qed.

End LauncherFacts.

(** * The directory listing *)

Section BrowseFacts.

Import Py PosixPath Browse Sample MoreSamples.

Lemma scan_spec E dir entries : forall items its,
  scan E dir entries items = Some its ->
  exists added,
    its = items ++ added
    /\ Forall2 (lists E dir) (List.filter (shown E dir) entries) added.
Proof.
  induction entries as [|n rest IH]; intros items its Hscan.
  - injection Hscan as <-. exists []. rewrite app_nil_r. by split; [|constructor].
  - cbn [scan List.filter] in *. unfold shown at 1, hidden at 1.
    destruct (starts_with [c_dot] n) eqn:Hhid; cbn [negb andb].
    { by apply IH. }
    destruct (isdir E (join dir n)) eqn:Hdir; cbn [orb].
    { destruct (IH _ _ Hscan) as (added & -> & Hadded).
      exists (dir_item dir n :: added). rewrite <- app_assoc. split; [done|].
      constructor; [|done]. split; [done|]. left. by split. }
    destruct (bool_decide_reflect (lower E (splitext n).2 ∈ video_exts)) as [Hext|Hext].
    + destruct (getsize E (join dir n)) as [sz|] eqn:Hsz; [|done].
      destruct (IH _ _ Hscan) as (added & -> & Hadded).
      exists (video_item dir n sz :: added). rewrite <- app_assoc. split; [done|].
      constructor; [|done]. split; [done|]. right.
      split; [done|]. split; [done|]. by exists sz.
    + by apply IH.
Qed.

(** A video whose size cannot be read makes the whole scan fail. *)
Lemma scan_fails E dir entries : forall items n,
  n ∈ entries -> hidden n = false -> isdir E (join dir n) = false ->
  lower E (splitext n).2 ∈ video_exts -> getsize E (join dir n) = None ->
  scan E dir entries items = None.
Proof.
  induction entries as [|m rest IH]; intros items n Hin Hhid Hdir Hext Hsz.
  - by apply elem_of_nil in Hin.
  - apply elem_of_cons in Hin as [<- | Hin].
    + cbn [scan]. unfold hidden in Hhid. rewrite Hhid, Hdir.
      by rewrite bool_decide_eq_true_2, Hsz.
    + cbn [scan]. repeat case_match; eauto.
Qed.

Lemma str_lt_asym a : forall b, str_lt a b = true -> str_lt b a = false.
Proof.
  induction a as [|x a IH]; intros [|y b] H; try done.
  cbn [str_lt] in *. destruct (N.ltb_spec x y), (N.ltb_spec y x); try done; try lia.
  by apply IH.
Qed.

Lemma str_le_trans a : forall b c,
  str_lt b a = false -> str_lt c b = false -> str_lt c a = false.
Proof.
  induction a as [|x a IH]; intros [|y b] [|z c] Hab Hbc; try done.
  cbn [str_lt] in *.
  destruct (N.ltb_spec y x), (N.ltb_spec x y), (N.ltb_spec z y), (N.ltb_spec y z),
    (N.ltb_spec z x), (N.ltb_spec x z); try done; try lia.
  by apply (IH b c).
Qed.

Lemma key_le_trans key a b c : key_le key a b -> key_le key b c -> key_le key a c.
Proof. unfold key_le. intros Hab Hbc. by apply (str_le_trans _ (key b)). Qed.

Lemma insert_by_key_perm key x l : Permutation (insert_by_key key x l) (x :: l).
Proof.
  induction l as [|y l IH]; [done|]. cbn [insert_by_key].
  destruct (str_lt (key y) (key x)); [|done].
  rewrite IH. apply perm_swap.
Qed.

Lemma sorted_by_key_perm key l : Permutation (sorted_by_key key l) l.
Proof.
  induction l as [|x l IH]; [done|]. cbn [sorted_by_key foldr].
  fold (sorted_by_key key l). by rewrite insert_by_key_perm, IH.
Qed.

Lemma insert_by_key_sorted key x l :
  StronglySorted (key_le key) l -> StronglySorted (key_le key) (insert_by_key key x l).
Proof.
  induction 1 as [|y l Hl IH Hy]; [repeat constructor|].
  cbn [insert_by_key]. destruct (str_lt (key y) (key x)) eqn:Hyx.
  - constructor; [done|].
    rewrite (Forall_forall (key_le key y)). intros z Hz.
    rewrite (insert_by_key_perm key x l) in Hz.
    apply elem_of_cons in Hz as [-> | Hz].
    + by apply str_lt_asym.
    + by apply (proj1 (Forall_forall _ _) Hy).
  - constructor; [by constructor|]. constructor; [exact Hyx|].
    eapply Forall_impl; [exact Hy|]. cbn. intros z Hz.
    by apply (key_le_trans key x y z).
Qed.

Lemma sorted_by_key_sorted key l : StronglySorted (key_le key) (sorted_by_key key l).
Proof.
  induction l as [|x l IH]; [constructor|]. cbn [sorted_by_key foldr].
  by apply insert_by_key_sorted.
Qed.

Lemma filter_strongly_sorted {A} (R : A -> A -> Prop) f l :
  StronglySorted R l -> StronglySorted R (List.filter f l).
Proof.
  induction 1 as [|x l Hl IH Hx]; [constructor|]. cbn [List.filter].
  destruct (f x); [|done]. constructor; [done|].
  rewrite Forall_forall in *. intros y Hy. apply Hx.
  apply list_elem_of_In. apply list_elem_of_In in Hy. apply List.filter_In in Hy. tauto.
Qed.



Lemma handle_browse_listed E q dir items :
  handle_browse E q = Listed dir items ->
  dir = listed_dir E q
  /\ exists names added,
       listdir E dir = Entries names
       /\ items = parent_items dir ++ added
       /\ Forall2 (lists E dir)
            (List.filter (shown E dir) (sorted_by_key (lower E) names)) added.
Proof.
  unfold handle_browse. intros H.
  destruct (listdir E (listed_dir E q)) as [names| |] eqn:Hls;
    [|by destruct (sendable _ _)|done].
  destruct (scan E _ _ _) as [its|] eqn:Hscan; [|done].
  destruct (sendable _ _); [|done].
  injection H as <- <-. split; [done|].
  destruct (scan_spec _ _ _ _ _ Hscan) as (added & -> & Hadded).
  by exists names, added.
Qed.


(** X19: after the parent link the items of a listing follow
    one another in the order of the lowercased names of their entries. *)
Theorem browse_items_in_key_order E q dir items :
  handle_browse E q = Listed dir items ->
  exists kept added,
    items = parent_items dir ++ added
    /\ Forall2 (lists E dir) kept added
    /\ StronglySorted (key_le (lower E)) kept.
Proof.
  intros H. destruct (handle_browse_listed _ _ _ _ H) as (_ & names & added & _ & -> & Hall).
  eexists _, added. split; [done|]. split; [exact Hall|].
  apply filter_strongly_sorted, sorted_by_key_sorted.
Qed.

(** X20: when the size of one visible video file of the
    directory cannot be read, the handler raises: no listing is sent. *)
Theorem browse_unreadable_video_raises E q names n :
  let dir := listed_dir E q in
  listdir E dir = Entries names ->
  n ∈ names -> hidden n = false -> isdir E (join dir n) = false ->
  lower E (splitext n).2 ∈ video_exts -> getsize E (join dir n) = None ->
  handle_browse E q = Raised.
Proof.
  intros dir Hls Hn Hhid Hdir Hext Hsz. unfold handle_browse. fold dir. rewrite Hls.
  rewrite (scan_fails E dir _ _ n); auto.
  by rewrite (sorted_by_key_perm (lower E) names).
Qed.


Lemma browse_items_in_key_order_witness :
  exists kept added,
    browse_items = Browse.parent_items (lit "/m") ++ added
    /\ Forall2 (Browse.lists (browse_env size_2048) (lit "/m")) kept added
    /\ StronglySorted (Browse.key_le ascii_lower) kept.
Proof.
  apply (browse_items_in_key_order (browse_env size_2048) (Some (lit "/m")) (lit "/m")
           browse_items).
  vm_compute. reflexivity.
Defined.

Lemma browse_unreadable_video_raises_witness :
  Browse.handle_browse (browse_env size_unreadable) (Some (lit "/m")) = Browse.Raised.
Proof.
  apply (browse_unreadable_video_raises (browse_env size_unreadable) (Some (lit "/m"))
           browse_names (lit "a.mov")).
  - reflexivity.
  - unfold browse_names. set_solver.
  - reflexivity.
  - reflexivity.
  - vm_compute. set_solver.
  - reflexivity.
Defined.

End BrowseFacts.

(** * The editing operations *)

Section EditorFacts.

Import Py PyFloat Exporter Editor Sample MoreSamples.

Lemma SFcompare_antisym x y c :
  SFcompare x y = Some c -> SFcompare y x = Some (CompOpp c).
Proof.
  destruct x as [sx|sx| |sx mx ex], y as [sy|sy| |sy my ey]; cbn [SFcompare];
    try discriminate; try (intros [= <-]; by repeat case_match).
  intros [= <-]. f_equal. rewrite (Z.compare_antisym ex ey).
  destruct sx, sy; try done; destruct (ex ?= ey)%Z; cbn [CompOpp]; try done.
  - by rewrite !Pos.compare_cont_antisym.
  - by rewrite Pos.compare_cont_antisym.
Qed.

Lemma SFcompare_not_nan x y :
  is_nan x = false -> is_nan y = false -> exists c, SFcompare x y = Some c.
Proof. destruct x, y; try done; intros _ _; cbn [SFcompare]; by eexists. Qed.

Lemma not_leb_ltb o i :
  is_nan o = false -> is_nan i = false -> leb o i = false -> ltb i o = true.
Proof.
  intros Ho Hi Hle. destruct (SFcompare_not_nan o i Ho Hi) as [c Hc].
  unfold leb, ltb, SFleb, SFltb in *. rewrite Hc in Hle.
  rewrite (SFcompare_antisym _ _ _ Hc). by destruct c.
Qed.

Lemma ltb_not_nan i o : ltb i o = true -> is_nan i = false /\ is_nan o = false.
Proof. unfold ltb, SFltb. by destruct i, o. Qed.

Lemma insert_sorted_perm x l : Permutation (UI.insert_sorted x l) (x :: l).
Proof.
  induction l as [|y l IH]; [done|]. cbn [UI.insert_sorted].
  destruct (UI.before y x); [|done]. rewrite IH. apply perm_swap.
Qed.

Lemma sort_perm l : Permutation (UI.sort l) l.
Proof.
  induction l as [|x l IH]; [done|]. unfold UI.sort. cbn [foldr].
  fold (UI.sort l). by rewrite insert_sorted_perm, IH.
Qed.

(** X21: when [inPoint] and [outPoint] are set and [outPoint <=
    inPoint] does not hold, [addToCutList] shows no alert, clears both
    points and leaves a cut list that holds the new segment and the former
    ones, each once. *)
Theorem add_to_cut_list_keeps_segments st i o :
  UI.inPoint st = Some i -> UI.outPoint st = Some o -> leb o i = false ->
  exists l,
    UI.addToCutList st
    = ({| UI.inPoint := None; UI.outPoint := None; UI.cutList := l |}, None)
    /\ Permutation l ({| t_in := i; t_out := o |} :: UI.cutList st)
    /\ length l = S (length (UI.cutList st)).
Proof.
  intros Hi Ho Hle. unfold UI.addToCutList. rewrite Hi, Ho, Hle.
  eexists. split; [reflexivity|].
  assert (Hperm : Permutation (UI.sort (UI.cutList st ++ [{| t_in := i; t_out := o |}]))
                    ({| t_in := i; t_out := o |} :: UI.cutList st)).
  { rewrite sort_perm. by rewrite Permutation_app_comm. }
  split; [exact Hperm|]. by rewrite Hperm.
Qed.

(** X22: after [setInPoint] or [setOutPoint] on a loaded video,
    with no NaN among the times, [inPoint] lies strictly before [outPoint]
    whenever both are set. *)
Theorem pending_points_ordered p :
  has_video p = true -> is_nan (currentTime p) = false ->
  no_nan (UI.inPoint (sel p)) -> no_nan (UI.outPoint (sel p)) ->
  forall p', p' = setInPoint p \/ p' = setOutPoint p ->
  forall i o,
    UI.inPoint (sel p') = Some i -> UI.outPoint (sel p') = Some o -> ltb i o = true.
Proof.
  intros Hv Ht Hin Hout p' Hp' i o Hi Ho.
  destruct Hp' as [-> | ->]; unfold setInPoint, setOutPoint in Hi, Ho;
    rewrite Hv in Hi, Ho; cbn in Hi, Ho.
  - injection Hi as <-.
    destruct (UI.outPoint (sel p)) as [o'|]; [|done].
    destruct (leb o' (currentTime p)) eqn:Hle; [done|]. injection Ho as <-.
    by apply not_leb_ltb.
  - injection Ho as <-.
    destruct (UI.inPoint (sel p)) as [i'|]; [|done].
    destruct (leb (currentTime p) i') eqn:Hle; [done|]. injection Hi as <-.
    by apply not_leb_ltb.
Qed.

Lemma step_inv p o : op_times_ok o = true -> inv p -> inv (step p o).
Proof.
  intros Hok Hinv. pose proof Hinv as (Ht & Hd & Hin & Hout & Hcut).
  destruct o; cbn [step].
  - unfold setInPoint. destruct (has_video p); [|exact Hinv]. repeat split; auto.
    cbn. destruct (UI.outPoint (sel p)) as [o'|]; [|done].
    by destruct (leb o' (currentTime p)).
  - unfold setOutPoint. destruct (has_video p); [|exact Hinv]. repeat split; auto.
    cbn. destruct (UI.inPoint (sel p)) as [i'|]; [|done].
    by destruct (leb (currentTime p) i').
  - unfold selectAll. destruct (has_video p); [|exact Hinv]. by repeat split.
  - unfold addToCutList, UI.addToCutList.
    destruct (UI.inPoint (sel p)) as [i|] eqn:Hi;
      [|destruct p as [? ? ? []]; exact Hinv].
    destruct (UI.outPoint (sel p)) as [o|] eqn:Ho;
      [|destruct p as [? ? ? []]; exact Hinv].
    destruct (leb o i) eqn:Hle; [destruct p as [? ? ? []]; exact Hinv|].
    repeat split; auto. cbn.
    rewrite sort_perm. apply Forall_app. split; [done|].
    repeat constructor. unfold ordered. cbn. by apply not_leb_ltb.
  - unfold removeCut. repeat split; auto. cbn. by apply Forall_delete.
  - unfold clearCutList. destruct (UI.cutList (sel p)) eqn:Hl; [exact Hinv|].
    destruct confirmed; [by repeat split | exact Hinv].
  - cbn in Hok. apply negb_true_iff in Hok. by repeat split.
  - cbn in Hok. apply negb_true_iff in Hok. by repeat split.
Qed.

(** X23: from the initial page, after any sequence of the editing
    operations in which no position or duration is NaN, every segment of
    the cut list has its [in] strictly before its [out]. *)
Theorem cut_list_ranges_ordered ops :
  Forall (fun o => op_times_ok o = true) ops ->
  Forall ordered (UI.cutList (sel (run ops page0))).
Proof.
  intros Hops. assert (Hinv : inv (run ops page0)).
  { unfold run. assert (H0 : inv page0) by (by repeat split).
    revert H0. generalize page0. induction Hops as [|o ops Ho _ IH]; intros p Hp; [done|].
    cbn [foldl]. apply IH. by apply step_inv. }
  apply Hinv.
Qed.

Lemma add_to_cut_list_keeps_segments_witness :
  exists l,
    UI.addToCutList {| UI.inPoint := Some float_10; UI.outPoint := Some float_30;
                       UI.cutList := [range_40_55] |}
    = ({| UI.inPoint := None; UI.outPoint := None; UI.cutList := l |}, None)
    /\ Permutation l [range_10_30; range_40_55]
    /\ length l = 2%nat.
Proof.
  apply (add_to_cut_list_keeps_segments
           {| UI.inPoint := Some float_10; UI.outPoint := Some float_30;
              UI.cutList := [range_40_55] |} float_10 float_30); reflexivity.
Defined.

Lemma pending_points_ordered_witness : ltb float_10 float_30 = true.
Proof.
  apply (pending_points_ordered edit_page eq_refl eq_refl I eq_refl
           (Editor.setInPoint edit_page) (or_introl eq_refl) float_10 float_30);
    reflexivity.
Defined.

Lemma cut_list_ranges_ordered_witness :
  Forall Editor.ordered (UI.cutList (Editor.sel (Editor.run edit_ops Editor.page0))).
Proof. apply (cut_list_ranges_ordered edit_ops). repeat constructor. Defined.

End EditorFacts.

(** * The built-ins on concrete inputs *)

Section Examples.

Import Py PyFloat PosixPath Exporter Sample.

Example str_of_N_1000 : str_of_N 1000 = lit "1000".
Proof. reflexivity. Qed.

Example int_examples :
  int (lit "200") = Some 200%Z /\ int (lit " +1_000 ") = Some 1000%Z /\
  int (lit "") = None /\ int (lit "1__0") = None /\ int (lit "12a") = None.
Proof. repeat split; reflexivity. Qed.

(** U+0085 and U+3000 are stripped, U+001C is not. *)
Example int_whitespace_examples :
  int ([133] ++ lit "3" ++ [12288]) = Some 3%Z /\ int ([28] ++ lit "3") = None.
Proof. repeat split; reflexivity. Qed.

(** The text of the encoding error, for one surrogate and for two in a row. *)
Example success_encode_error_examples :
  success_encode_error (lit "/out" ++ [56448] ++ lit "/video_cut.mp4")
  = lit "'utf-8' codec can't encode character '\udc80' in position 33: surrogates not allowed"
  /\ success_encode_error (lit "/m/" ++ [55357; 56832] ++ lit ".mp4")
     = lit "'utf-8' codec can't encode characters in position 32-33: surrogates not allowed".
Proof. split; reflexivity. Qed.

(** An output directory with a surrogate: the transcoder has run, and the
    reply is the error 500 with the text of the encoding error. *)
Example unencodable_output_path :
  handle_export (export_env run_ok)
    (sample_request_to (lit "/out" ++ [56448]) [range_10_30]) world0
  = Some ({| code := 500;
             payload := JError (lit "'utf-8' codec can't encode character '\udc80' in position 33: surrogates not allowed") |},
          {| spawned :=
               [single_cmd (lit "/movies/video.mp4") false range_10_30
                  (lit "/out" ++ [56448] ++ lit "/video_cut.mp4")];
             temp_dirs := ∅; written := [] |}).
Proof. by vm_compute. Qed.

Example split_examples :
  split c_minus (replace (lit "bytes=") [] (lit "bytes=200-299"))
    = [lit "200"; lit "299"] /\
  split c_minus (lit "-500") = [[]; lit "500"] /\
  split c_minus (lit "5-") = [lit "5"; []] /\
  split c_minus [] = [[]].
Proof. repeat split; reflexivity. Qed.

Example posixpath_examples :
  basename (lit "/a/b/video.mp4") = lit "video.mp4" /\
  dirname (lit "/a/b/video.mp4") = lit "/a/b" /\
  dirname (lit "video.mp4") = [] /\
  splitext (lit "video.mp4") = (lit "video", lit ".mp4") /\
  splitext (lit ".bashrc") = (lit ".bashrc", []) /\
  splitext (lit "x.tar.gz") = (lit "x.tar", lit ".gz") /\
  join (lit "/a") (lit "b") = lit "/a/b" /\
  join (lit "/a/") (lit "b") = lit "/a/b" /\
  join [] (lit "b") = lit "b".
Proof. repeat split; reflexivity. Qed.

(** [0.125] and [0.5] lie halfway: the tie goes to the even digit. *)
Example format_f_examples :
  of_int 10 = float_10 /\ of_int 30 = float_30 /\
  format_f 4 float_55_5 = lit "55.5000" /\
  format_f 4 (sub float_10 float_30) = lit "-20.0000" /\
  format_f 4 (S754_zero true) = lit "-0.0000" /\
  format_f 2 (S754_finite false 1 (-3)) = lit "0.12" /\
  format_f 0 (S754_finite false 1 (-1)) = lit "0" /\
  format_f 4 (S754_finite false 3602879701896397 (-55)) = lit "0.1000" /\
  format_f 4 (S754_infinity false) = lit "inf" /\
  format_size 1536 = lit "1.5 KB" /\ format_size 500 = lit "500.0 B".
Proof. repeat split; reflexivity. Qed.

End Examples.
